(** * solo: a shell singleton (src/solo.c)

    The program wraps a command so that at most one instance of it runs at a
    time.  It picks a lock file, installs signal handlers, creates and locks
    the file with [lockf (F_TLOCK)], forks, executes the command in the
    child and waits for it in the parent; every exit of the parent goes
    through [graceful_exit], which unlinks the lock file and then closes it.

    The C code is embedded as a program over system calls: a finite tree
    whose nodes are the calls the code makes and whose branches are the
    replies of the operating system.  The globals [lockfile], [lockfile_fd]
    and [errno] are threaded through as explicit state.

    What the embedding takes for granted:
    - a system call that returns -1 leaves its error in [errno], any other
      system call leaves [errno] as it was; the output functions [printf],
      [fprintf] and [perror] may change [errno] whatever they return (the
      code reads [errno] after [perror]), though never to zero;
    - [exit] is given the status as the code passes it (the system keeps
      its low eight bits);
    - strings are values: [lockfile = filepath] records the text of the
      buffer (in C the buffer is local to the block that fills it);
    - arguments are C strings, without a NUL character. *)

From Stdlib Require Import ZArith List String Ascii Bool Lia.
Import ListNotations.
Open Scope string_scope.
Open Scope Z_scope.

(** ** Constants of the system headers (Linux) *)

Definition PATH_MAX : Z := 4096.          (* linux/limits.h *)
Definition S_IWUSR : Z := 128.            (* 0200 *)
Definition S_IFMT : Z := 61440.           (* 0170000 *)
Definition S_IFDIR : Z := 16384.          (* 0040000 *)
Definition S_IFREG : Z := 32768.          (* 0100000 *)
Definition F_TLOCK : Z := 2.
Definition SIGHUP : Z := 1.
Definition SIGINT : Z := 2.
Definition SIGTERM : Z := 15.
Definition ENOENT : Z := 2.
Definition EBADF : Z := 9.
Definition EAGAIN : Z := 11.
Definition EACCES : Z := 13.
Definition EFAULT : Z := 14.
Definition EINVAL : Z := 22.
Definition ENAMETOOLONG : Z := 36.
Definition ENOLCK : Z := 37.

(** [S_ISDIR (m)] is [((m) & S_IFMT) == S_IFDIR]. *)
Definition S_ISDIR (m : Z) : bool := Z.land m S_IFMT =? S_IFDIR.

(** ** System calls and their replies *)

(** A [char *] that may be [NULL]. *)
Definition cstr : Type := option string.

Inductive call : Type :=
| stat (path : string)
| sigaction (signum : Z)                 (* the handler is [signal_handler] *)
| creat (path : cstr) (mode : Z)
| lockf (fd cmd len : Z)
| fork
| close (fd : Z)
| unlink (path : cstr)
| execvp (file : cstr) (args : list string)
| waitpid (pid : Z) (options : Z)
| printf (text : string)
| fprintf_stderr (text : string)
| perror (prefix : string).

(** What the system answers: the return value, the value left in [errno]
    (by a system call when it fails, by an output function when the value
    is not zero), and the [st_mode] that [stat] stores. *)
Record reply : Type := mkReply { ret : Z; err : Z; st_mode : Z }.

Definition success (v : Z) : reply := mkReply v 0 0.
Definition failure (e : Z) : reply := mkReply (-1) e 0.

Inductive event : Type := Ev (c : call) (r : reply).

Definition ev_call (e : event) : call := let 'Ev c _ := e in c.
Definition ev_reply (e : event) : reply := let 'Ev _ r := e in r.

(** The output functions of the C library.  They are no system calls:
    [perror] returns nothing, and each of them may leave a new value in
    [errno] even when it has written its text. *)
Definition is_output (c : call) : bool :=
  match c with
  | printf _ | fprintf_stderr _ | perror _ => true
  | _ => false
  end.

(** ** The process state *)

Record pstate : Type := mkState {
  lockfile : cstr;             (* const char *lockfile = NULL; *)
  lockfile_fd : Z;             (* int lockfile_fd = -1; *)
  errno : Z;
  handlers : list Z;           (* signals routed to [signal_handler] *)
  ncalls : nat                 (* calls made so far *)
}.

Definition initial : pstate :=
  {| lockfile := None; lockfile_fd := -1; errno := 0;
     handlers := []; ncalls := 0 |}.

Definition set_lockfile (v : cstr) (s : pstate) : pstate :=
  {| lockfile := v; lockfile_fd := lockfile_fd s; errno := errno s;
     handlers := handlers s; ncalls := ncalls s |}.

Definition set_lockfile_fd (v : Z) (s : pstate) : pstate :=
  {| lockfile := lockfile s; lockfile_fd := v; errno := errno s;
     handlers := handlers s; ncalls := ncalls s |}.

(** The value of [errno] after a call.  A failing system call (-1) leaves
    its error; an output function leaves what the reply says when that is
    not zero (no library function sets [errno] to zero). *)
Definition errno_after (c : call) (r : reply) (e : Z) : Z :=
  if is_output c then (if err r =? 0 then e else err r)
  else if ret r =? -1 then err r else e.

Arguments errno_after c r e /.

(** The effect of a call on the state of the calling process: [errno] as
    above, and a successful [sigaction] routes the signal to the
    handler. *)
Definition after_call (c : call) (r : reply) (s : pstate) : pstate :=
  {| lockfile := lockfile s;
     lockfile_fd := lockfile_fd s;
     errno := errno_after c r (errno s);
     handlers := match c with
                 | sigaction sig => if ret r =? -1 then handlers s
                                    else sig :: handlers s
                 | _ => handlers s
                 end;
     ncalls := S (ncalls s) |}.

(** ** Programs *)

Inductive prog (A : Type) : Type :=
| Ret (a : A)                                (* the function returns [a] *)
| Exit (status : Z)                          (* [exit (status)] *)
| Sys (c : call) (k : reply -> prog A)
| Get (k : pstate -> prog A)                 (* read the globals *)
| Put (f : pstate -> pstate) (k : prog A).   (* assign a global *)

Arguments Ret {A} a.
Arguments Exit {A} status.
Arguments Sys {A} c k.
Arguments Get {A} k.
Arguments Put {A} f k.

Fixpoint bind {A B : Type} (p : prog A) (f : A -> prog B) : prog B :=
  match p with
  | Ret a => f a
  | Exit st => Exit st
  | Sys c k => Sys c (fun r => bind (k r) f)
  | Get k => Get (fun s => bind (k s) f)
  | Put g k => Put g (bind k f)
  end.

Declare Scope prog_scope.
Delimit Scope prog_scope with prog.
Notation "x <- p ;; q" := (bind p (fun x => q))
  (at level 61, p at next level, right associativity) : prog_scope.
Notation "p ;; q" := (bind p (fun _ => q))
  (at level 61, right associativity) : prog_scope.
Open Scope prog_scope.

Definition sys (c : call) : prog reply := Sys c (fun r => Ret r).
Definition get : prog pstate := Get (fun s => Ret s).
Definition put (f : pstate -> pstate) : prog unit := Put f (Ret tt).

(** ** Running a program against an environment *)

(** The environment answers the [n]-th call of the process. *)
Definition env : Type := nat -> call -> reply.

Inductive outcome (A : Type) : Type :=
| Returned (a : A)
| Exited (status : Z)
| Replaced.                    (* [execvp] succeeded: a new program image *)

Arguments Returned {A} a.
Arguments Exited {A} status.
Arguments Replaced {A}.

Definition is_exec (c : call) : bool :=
  match c with execvp _ _ => true | _ => false end.

(** A successful [execvp] does not return. *)
Definition replaces (c : call) (r : reply) : bool :=
  is_exec c && negb (ret r =? -1).

Arguments replaces c r /.

Record result (A : Type) : Type := mkResult {
  out : outcome A;
  final : pstate;
  trace : list event
}.

Arguments mkResult {A} out final trace.
Arguments out {A} r.
Arguments final {A} r.
Arguments trace {A} r.

Definition emit {A : Type} (e : event) (r : result A) : result A :=
  mkResult (out r) (final r) (e :: trace r).

Fixpoint eval {A : Type} (E : env) (p : prog A) (s : pstate) : result A :=
  match p with
  | Ret a => mkResult (Returned a) s []
  | Exit st => mkResult (Exited st) s []
  | Sys c k =>
      let r := E (ncalls s) c in
      let s' := after_call c r s in
      if replaces c r then mkResult Replaced s' [Ev c r]
      else emit (Ev c r) (eval E (k r) s')
  | Get k => eval E (k s) s
  | Put f k => eval E k (f s)
  end.

(** ** The source, function by function *)

Definition usage_text : string :=
  "solo implements a shell singleton. By wrapping acommand invocation with solo" ++ String "010" (
  "solo, the program is guaranteed to be the only one among others wrapped with" ++ String "010" (
  "solo that is running at a given time." ++ String "010" (String "010" (
  "Usage: solo COMMAND" ++ String "010" (
  "       solo [-l|--lockfile] LOCKFILE COMMAND" ++ String "010" EmptyString))))).

Definition usage : prog unit :=
  sys (printf usage_text) ;; Ret tt.

Definition paths : list string := ["/var/lock"; "/tmp"].

(** The loop of [get_lockdir] over the remaining candidates; [None] is the
    [NULL] result. *)
Fixpoint get_lockdir_from (candidates : list string) : prog cstr :=
  match candidates with
  | [] => Ret (Some ".")
  | path :: rest =>
      r <- sys (stat path) ;;
      if negb (ret r =? 0) then
        sys (perror "stat") ;; Ret None
      else if S_ISDIR (st_mode r) then Ret (Some path)
      else get_lockdir_from rest
  end.

Definition get_lockdir : prog cstr := get_lockdir_from paths.

(** [graceful_exit]: unlink the lock file if one was recorded, then close
    the descriptor if one is open, then exit. *)
Definition graceful_exit {A : Type} (status : Z) : prog A :=
  s <- get ;;
  match lockfile s with
  | Some p => sys (unlink (Some p)) ;; Ret tt
  | None => Ret tt
  end ;;
  s <- get ;;
  (if negb (lockfile_fd s =? -1) then sys (close (lockfile_fd s)) ;; Ret tt
   else Ret tt) ;;
  Exit status.

Definition signal_handler (signal : Z) : prog unit :=
  graceful_exit 1.

Definition signals : list Z := [SIGHUP; SIGINT; SIGTERM].

(** The loop of [install_signal_handlers] over the remaining signals. *)
Fixpoint install_from (sigs : list Z) : prog Z :=
  match sigs with
  | [] => Ret 0
  | sig :: rest =>
      r <- sys (sigaction sig) ;;
      if ret r =? -1 then
        sys (perror "sigaction") ;;
        s <- get ;; Ret (errno s)
      else install_from rest
  end.

Definition install_signal_handlers : prog Z := install_from signals.

(** ** Library functions used by [main] *)

(** The text after the last slash, when there is a slash. *)
Fixpoint after_last_slash (s : string) : option string :=
  match s with
  | EmptyString => None
  | String c t =>
      match after_last_slash t with
      | Some r => Some r
      | None => if Ascii.eqb c "/" then Some t else None
      end
  end.

(** GNU [basename] of string.h (the program defines [_GNU_SOURCE] and does
    not include libgen.h): [p = strrchr (s, '/'); return p ? p + 1 : s]. *)
Definition basename (s : string) : string :=
  match after_last_slash s with
  | Some r => r
  | None => s
  end.

(** [snprintf (buf, size, "%s/solo-lock-%s", dir, name)]: the buffer
    receives at most [size - 1] characters, the result is the length of
    the whole text. *)
Definition lock_path (dir name : string) : string :=
  dir ++ "/solo-lock-" ++ name.

Definition snprintf_lock (size : Z) (dir name : string) : string * Z :=
  let full := lock_path dir name in
  (substring 0 (Z.to_nat (size - 1)) full, Z.of_nat (String.length full)).

(** [argv[i]]; [argv[argc]] is [NULL]. *)
Definition arg (argv : list string) (i : nat) : cstr := nth_error argv i.

Definition cstr_eqb (a : cstr) (b : string) : bool :=
  match a with
  | Some x => String.eqb x b
  | None => false
  end.

Definition text (a : cstr) : string :=
  match a with Some x => x | None => "(null)" end.

Definition nl : string := String "010" EmptyString.

(** ** [main] *)

Definition already_running_text : string :=
  "Another instance is already running" ++ nl.

(** [main] is cut in three at its blank lines, for the proofs: the choice
    of the lock file ([main], lines 112 to 157), the installation of the
    handlers ([main_tail], lines 159 to 166) and the rest
    ([lock_and_run], lines 168 to 209); [cmd_start] is set in the first
    part.  The [graceful_exit (0)] that ends [main] is written at the end
    of each branch of the fork that reaches it. *)
Definition lock_and_run (argv : list string) (cmd_start : nat) : prog Z :=
  s <- get ;;
  fd <- sys (creat (lockfile s) S_IWUSR) ;;
  put (set_lockfile_fd (ret fd)) ;;
  s <- get ;;
  (if lockfile_fd s =? -1 then
     sys (perror "lock file creation failed") ;;
     s <- get ;; graceful_exit (errno s)
   else Ret tt) ;;
  s <- get ;;
  result <- sys (lockf (lockfile_fd s) F_TLOCK 0) ;;
  (if ret result =? -1 then
     s <- get ;;
     (if (errno s =? EACCES) || (errno s =? EAGAIN) then
        sys (fprintf_stderr already_running_text)
      else
        sys (perror "cannot take lock")) ;;
     s <- get ;; graceful_exit (errno s)
   else Ret tt) ;;
  pid <- sys fork ;;
  if ret pid =? 0 then
    (* Child *)
    s <- get ;;
    sys (close (lockfile_fd s)) ;;
    result <- sys (execvp (arg argv cmd_start) (skipn cmd_start argv)) ;;
    if ret result =? -1 then
      sys (perror "failed to exec program") ;;
      (* Don't try to cleanup; let the parent handle that *)
      s <- get ;; Ret (errno s)
    else graceful_exit 0
  else if ret pid >? 0 then
    (* Parent *)
    result <- sys (waitpid (ret pid) 0) ;;
    (if ret result =? -1 then
       sys (perror "waitpid") ;;
       s <- get ;; graceful_exit (errno s)
     else Ret tt) ;;
    graceful_exit 0
  else
    sys (perror "fork") ;;
    s <- get ;; graceful_exit (errno s).

Arguments lock_and_run : simpl never.

Definition main_tail (argv : list string) (cmd_start : nat) : prog Z :=
  result <- install_signal_handlers ;;
  if negb (result =? 0) then Ret result else
  lock_and_run argv cmd_start.

Arguments main_tail : simpl never.

Definition no_lockdir_text : string :=
  "Cannot find a temporary lock directory!" ++ nl.

Definition too_large_text : string :=
  "Command or lockdir too large; this is likely a bug. Please report it!" ++ nl.

Definition main (argv : list string) : prog Z :=
  let argc := List.length argv in
  if (argc <? 2)%nat then usage ;; Ret 1 else
  if cstr_eqb (arg argv 1) "-l" || cstr_eqb (arg argv 1) "--lockfile" then
    if (argc <? 3)%nat then usage ;; Ret 1 else
    put (set_lockfile (arg argv 2)) ;;
    main_tail argv 3
  else
    let cmd_start := 1%nat in
    lockdir <- get_lockdir ;;
    match lockdir with
    | None =>
        sys (fprintf_stderr no_lockdir_text) ;;
        Ret 1
    | Some lockdir =>
        let program_name := basename (text (arg argv cmd_start)) in
        if String.eqb program_name EmptyString then
          sys (fprintf_stderr ("Invalid program name "
                                 ++ text (arg argv cmd_start) ++ nl)) ;;
          Ret 1
        else
          let (filepath, result) := snprintf_lock PATH_MAX lockdir program_name in
          (if result >=? PATH_MAX then
             sys (fprintf_stderr too_large_text) ;; Ret tt
           else Ret tt) ;;
          put (set_lockfile (Some filepath)) ;;
          main_tail argv cmd_start
    end.

(** A process started on [argv]: [main] runs from the initial state. *)
Definition run_main (E : env) (argv : list string) : result Z :=
  eval E (main argv) initial.

(** ** Step by step, with signals

    A signal can arrive between any two steps of the process.  When the
    signal has a handler, the handler runs on top of the interrupted code
    (and returns to it if it returns); without a handler the default action
    of the signal ends the process. *)

Inductive status : Type :=
| Running (p : prog Z)
| Done (o : outcome Z)
| Killed (sig : Z).

Record config : Type := mkConfig {
  st : status;
  ps : pstate;
  log : list event             (* the calls made, the latest first *)
}.

Definition history (c : config) : list event := rev (log c).

Inductive action : Type :=
| Tick                         (* the process runs one step *)
| Signal (sig : Z).            (* a signal is delivered *)

Definition installed (sig : Z) (s : pstate) : bool :=
  existsb (Z.eqb sig) (handlers s).

Definition tick (E : env) (p : prog Z) (s : pstate) (l : list event) : config :=
  match p with
  | Ret a => mkConfig (Done (Returned a)) s l
  | Exit x => mkConfig (Done (Exited x)) s l
  | Sys c k =>
      let r := E (ncalls s) c in
      let s' := after_call c r s in
      mkConfig (if replaces c r then Done Replaced else Running (k r))
               s' (Ev c r :: l)
  | Get k => mkConfig (Running (k s)) s l
  | Put f k => mkConfig (Running k) (f s) l
  end.

Definition step (E : env) (a : action) (c : config) : config :=
  match st c with
  | Running p =>
      match a with
      | Tick => tick E p (ps c) (log c)
      | Signal sig =>
          if installed sig (ps c)
          then mkConfig (Running (signal_handler sig ;; p)) (ps c) (log c)
          else mkConfig (Killed sig) (ps c) (log c)
      end
  | _ => c
  end.

Fixpoint exec (E : env) (sched : list action) (c : config) : config :=
  match sched with
  | [] => c
  | a :: rest => exec E rest (step E a c)
  end.

Definition start (argv : list string) : config :=
  mkConfig (Running (main argv)) initial [].

(** ** Several processes over one file system

    The part of the kernel that the lock protocol relies on: names bound
    to files, one descriptor table and one record lock per file.  POSIX
    semantics: [creat] opens the file a name is bound to or binds the name
    to a new file; [lockf (F_TLOCK)] fails with [EAGAIN] when another
    process holds the lock of the file; [unlink] removes the name and
    leaves the file and its lock to those who have it open; [close] drops
    the lock the closing process holds on the file. *)

Record kernel : Type := mkKernel {
  names : list (string * Z);          (* path, file *)
  open_files : list (Z * Z * Z);      (* process, descriptor, file *)
  locks : list (Z * Z);               (* file, process holding its lock *)
  next_file : Z
}.

Definition boot : kernel :=
  {| names := []; open_files := []; locks := []; next_file := 1 |}.

Fixpoint lookup_name (p : string) (l : list (string * Z)) : option Z :=
  match l with
  | [] => None
  | (q, f) :: rest => if String.eqb p q then Some f else lookup_name p rest
  end.

Fixpoint lookup_fd (pid fd : Z) (l : list (Z * Z * Z)) : option Z :=
  match l with
  | [] => None
  | (p, d, f) :: rest =>
      if (p =? pid) && (d =? fd) then Some f else lookup_fd pid fd rest
  end.

Fixpoint lock_holder (f : Z) (l : list (Z * Z)) : option Z :=
  match l with
  | [] => None
  | (g, p) :: rest => if g =? f then Some p else lock_holder f rest
  end.

(** The descriptor handed out, above the standard three; a wrapper opens
    one file, which gets descriptor 3. *)
Definition fresh_fd (pid : Z) (K : kernel) : Z :=
  3 + Z.of_nat (List.length (filter (fun e => fst (fst e) =? pid) (open_files K))).

Definition syscall (K : kernel) (pid : Z) (c : call) : reply * kernel :=
  match c with
  | creat (Some p) _ =>
      let fd := fresh_fd pid K in
      match lookup_name p (names K) with
      | Some f =>
          (success fd,
           mkKernel (names K) ((pid, fd, f) :: open_files K) (locks K)
                    (next_file K))
      | None =>
          let f := next_file K in
          (success fd,
           mkKernel ((p, f) :: names K) ((pid, fd, f) :: open_files K)
                    (locks K) (f + 1))
      end
  | creat None _ => (failure EFAULT, K)
  | lockf fd _ _ =>
      match lookup_fd pid fd (open_files K) with
      | None => (failure EBADF, K)
      | Some f =>
          match lock_holder f (locks K) with
          | Some q =>
              if q =? pid then (success 0, K) else (failure EAGAIN, K)
          | None =>
              (success 0,
               mkKernel (names K) (open_files K) ((f, pid) :: locks K)
                        (next_file K))
          end
      end
  | unlink (Some p) =>
      match lookup_name p (names K) with
      | Some _ =>
          (success 0,
           mkKernel (filter (fun e => negb (String.eqb p (fst e))) (names K))
                    (open_files K) (locks K) (next_file K))
      | None => (failure ENOENT, K)
      end
  | unlink None => (failure EFAULT, K)
  | close fd =>
      match lookup_fd pid fd (open_files K) with
      | None => (failure EBADF, K)
      | Some f =>
          (success 0,
           mkKernel (names K)
                    (filter (fun e => negb ((fst (fst e) =? pid)
                                            && (snd (fst e) =? fd)))
                            (open_files K))
                    (filter (fun e => negb ((fst e =? f) && (snd e =? pid)))
                            (locks K))
                    (next_file K))
      end
  | fork => (success (1000 + pid), K)      (* the parent's side of the fork *)
  | waitpid child _ => (success child, K)
  | _ => (success 0, K)
  end.

(** A system: the kernel and the wrapper processes, each with its number.
    A process that is scheduled runs one step; its calls are answered by
    the kernel. *)
Record system : Type := mkSystem {
  kern : kernel;
  procs : list (Z * config)
}.

(** A process that ends leaves its descriptors and its locks. *)
Definition reap (pid : Z) (K : kernel) : kernel :=
  mkKernel (names K)
           (filter (fun e => negb (fst (fst e) =? pid)) (open_files K))
           (filter (fun e => negb (snd e =? pid)) (locks K))
           (next_file K).

Definition ended (c : config) : bool :=
  match st c with Running _ => false | _ => true end.

Definition run_proc (K : kernel) (pid : Z) (c : config) : kernel * config :=
  match st c with
  | Running (Sys call _) =>
      let (r, K') := syscall K pid call in
      let c' := step (fun _ _ => r) Tick c in
      (if ended c' then reap pid K' else K', c')
  | Running _ =>
      let c' := step (fun _ _ => success 0) Tick c in
      (if ended c' then reap pid K else K, c')
  | _ => (K, c)
  end.

Fixpoint schedule_one (K : kernel) (pid : Z) (l : list (Z * config))
  : kernel * list (Z * config) :=
  match l with
  | [] => (K, [])
  | (q, c) :: rest =>
      if q =? pid then
        let (K', c') := run_proc K pid c in (K', (q, c') :: rest)
      else
        let (K', rest') := schedule_one K pid rest in (K', (q, c) :: rest')
  end.

Definition sys_step (S : system) (pid : Z) : system :=
  let (K', l') := schedule_one (kern S) pid (procs S) in mkSystem K' l'.

Definition sys_exec (sched : list Z) (S : system) : system :=
  fold_left sys_step sched S.

(** The invocations whose [lockf] succeeded, and the calls the processes
    are blocked in. *)
Definition acquired (c : config) : bool :=
  existsb (fun e => match e with
                    | Ev (lockf _ _ _) r => ret r =? 0
                    | _ => false
                    end) (log c).

Definition acquirers (S : system) : list Z :=
  map fst (filter (fun pc => acquired (snd pc)) (procs S)).

Definition waiting (c : config) : bool :=
  match st c with
  | Running (Sys (waitpid _ _) _) => true
  | _ => false
  end.

Definition commands_running (S : system) : list Z :=
  map fst (filter (fun pc => acquired (snd pc) && waiting (snd pc)) (procs S)).

Definition invocations (n : nat) (argv : list string) : system :=
  mkSystem boot (map (fun i => (Z.of_nat i, start argv)) (seq 1 n)).

(** * Vocabulary of the statements *)

Open Scope list_scope.

(** ** Results of programs in sequence *)

Definition then_run {A B : Type} (r : result A) (k : A -> pstate -> result B)
  : result B :=
  match out r with
  | Returned a =>
      let r2 := k a (final r) in
      mkResult (out r2) (final r2) (trace r ++ trace r2)
  | Exited x => mkResult (Exited x) (final r) (trace r)
  | Replaced => mkResult Replaced (final r) (trace r)
  end.

Definition prefixed {A : Type} (pre : list event) (r : result A) : result A :=
  mkResult (out r) (final r) (pre ++ trace r).

(** A program without a [Ret] leaf ignores what follows it. *)
Fixpoint never_returns {A : Type} (p : prog A) : Prop :=
  match p with
  | Ret _ => False
  | Exit _ => True
  | Sys _ k => forall r, never_returns (k r)
  | Get k => forall s, never_returns (k s)
  | Put _ k => never_returns k
  end.

(** What [graceful_exit] does, by the globals it finds. *)
Definition release_calls (s : pstate) : list call :=
  match lockfile s with
  | Some p => [unlink (Some p)]
  | None => []
  end ++
  (if lockfile_fd s =? -1 then [] else [close (lockfile_fd s)]).

Definition lock_failure_text (e : Z) : call :=
  if (e =? EACCES) || (e =? EAGAIN)
  then fprintf_stderr already_running_text
  else perror "cannot take lock".

(** ** Calls of a trace *)

(** The calls [main] makes before it creates the lock file. *)
Definition is_setup (c : call) : bool :=
  match c with
  | stat _ | sigaction _ | printf _ | fprintf_stderr _ | perror _ => true
  | _ => false
  end.

Definition setup_only (t : list event) : Prop :=
  Forall (fun e => is_setup (ev_call e) = true) t.

(** The calls of [install_signal_handlers]. *)
Definition handler_call (e : event) : Prop :=
  match ev_call e with
  | sigaction _ | perror _ => True
  | _ => False
  end.

Definition not_stat (e : event) : Prop :=
  match ev_call e with stat _ => False | _ => True end.

Definition not_usage (e : event) : Prop :=
  match ev_call e with printf _ => False | _ => True end.

Definition no_stat (t : list event) : Prop := Forall not_stat t.

(** The only path given to [creat] and [unlink] is the recorded one, and
    what is executed is [argv] from [cmd_start] on. *)
Definition event_ok (lf : string) (file : cstr) (args : list string)
    (e : event) : Prop :=
  match ev_call e with
  | creat p _ => p = Some lf
  | unlink p => p = Some lf
  | execvp f a => f = file /\ a = args
  | _ => True
  end.

(** ** The two ways of [main] to the lock file *)

Definition is_flag (a : string) : bool :=
  String.eqb a "-l" || String.eqb a "--lockfile".

(** Without the flag, [main] resolves the lock directory and derives the
    lock file from [argv[1]]. *)
Definition derive (E : env) (argv : list string) (cmd : string)
    (d : cstr) (s : pstate) : result Z :=
  match d with
  | None =>
      eval E (sys (fprintf_stderr no_lockdir_text) ;; Ret 1) s
  | Some D =>
      if String.eqb (basename cmd) EmptyString then
        eval E (sys (fprintf_stderr ("Invalid program name " ++ cmd ++ nl)%string)
                ;; Ret 1) s
      else if Z.of_nat (String.length (lock_path D (basename cmd))) >=? PATH_MAX
      then
        eval E (sys (fprintf_stderr too_large_text) ;;
                put (set_lockfile
                       (Some (fst (snprintf_lock PATH_MAX D (basename cmd))))) ;;
                main_tail argv 1) s
      else
        eval E (main_tail argv 1)
             (set_lockfile
                (Some (fst (snprintf_lock PATH_MAX D (basename cmd)))) s)
  end.

(** A run of [main] either returns before it creates a lock file, or
    reaches [lock_and_run] with a lock file recorded. *)
Definition reaches (E : env) (argv : list string) (res : result Z) : Prop :=
  (setup_only (trace res) /\ exists v, out res = Returned v) \/
  (exists pre s lf cs,
      setup_only pre /\ lockfile s = Some lf /\
      res = prefixed pre (eval E (lock_and_run argv cs) s)).

(** ** The order of release *)

Definition is_close (c : call) : bool :=
  match c with close _ => true | _ => false end.

Definition is_unlink (c : call) : bool :=
  match c with unlink _ => true | _ => false end.

(** The return of [fork] in the child. *)
Definition forked_child (c : call) (r : reply) : bool :=
  match c with fork => ret r =? 0 | _ => false end.

(** On a log (the latest call first). *)
Definition unlinked (l : list event) : bool :=
  existsb (fun e => is_unlink (ev_call e)) l.

Definition touched (l : list event) : bool :=
  existsb (fun e => is_unlink (ev_call e) || is_close (ev_call e)) l.

Definition just_forked (l : list event) : bool :=
  match l with
  | Ev c r :: _ => forked_child c r
  | [] => false
  end.

(** Every [close] comes after an [unlink], or is the first call of the
    child after [fork] (the child closes its copy of the descriptor before
    [execvp]). *)
Fixpoint ordered (l : list event) : Prop :=
  match l with
  | [] => True
  | e :: l' =>
      (is_close (ev_call e) = true ->
       unlinked l' = true \/ just_forked l' = true) /\
      ordered l'
  end.

Definition log_ok (s : pstate) (l : list event) : Prop :=
  (forall q r, In (Ev (unlink q) r) l -> q = lockfile s /\ q <> None) /\
  (forall fd r, In (Ev (close fd) r) l -> fd = lockfile_fd s) /\
  ordered l.

(** A descriptor is open only with a lock file recorded. *)
Definition calm (s : pstate) : Prop :=
  lockfile_fd s = -1 \/ lockfile s <> None.

(** What the order depends on: whether an [unlink] was made, whether the
    last call was the [fork] that made this process the child, whether an
    [unlink] or a [close] was made. *)
Record seen : Type := mkSeen { s_unlinked : bool; s_forked : bool; s_touched : bool }.

Definition seen_of (l : list event) : seen :=
  mkSeen (unlinked l) (just_forked l) (touched l).

Definition seen_after (c : call) (r : reply) (w : seen) : seen :=
  mkSeen (is_unlink c || s_unlinked w) (forked_child c r)
         (is_unlink c || is_close c || s_touched w).

Definition untouched : seen := mkSeen false false false.

(** A program that keeps the order whatever the system replies: it closes
    only [lockfile_fd] and only after an [unlink] or as the child just
    forked, unlinks only [lockfile], and assigns the globals only before
    any [unlink] or [close]; [Q] is what holds when it returns. *)
Fixpoint safe_then {A : Type} (w : seen) (s : pstate) (p : prog A)
    (Q : A -> seen -> pstate -> Prop) : Prop :=
  calm s /\
  match p with
  | Ret a => Q a w s
  | Exit _ => True
  | Sys c k =>
      (forall fd, c = close fd ->
         (s_unlinked w = true \/ s_forked w = true) /\ fd = lockfile_fd s) /\
      (forall q, c = unlink q -> q = lockfile s /\ q <> None) /\
      (forall r, safe_then (seen_after c r w) (after_call c r s) (k r) Q)
  | Get k => safe_then w s (k s) Q
  | Put f k => s_touched w = false /\ safe_then w (f s) k Q
  end.

Definition safe (w : seen) (s : pstate) (p : prog Z) : Prop :=
  safe_then w s p (fun _ _ _ => True).

Definition invariant (c : config) : Prop :=
  log_ok (ps c) (log c) /\
  match st c with
  | Running p => safe (seen_of (log c)) (ps c) p
  | _ => True
  end.

(** A program that only talks to the system keeps the globals. *)
Definition kept (s : pstate) {A : Type} (a : A) (w' : seen) (s' : pstate)
  : Prop :=
  w' = untouched /\ lockfile s' = lockfile s /\ lockfile_fd s' = lockfile_fd s.

(** ** Sample environments and inputs *)

(** An environment in which both candidates exist and are regular files. *)
Definition plain_files : env := fun _ _ => mkReply 0 0 S_IFREG.

(** A system in which every call succeeds: the candidates are directories,
    the process is the parent of the fork. *)
Definition quiet : env := fun _ c =>
  match c with
  | stat _ => mkReply 0 0 (Z.lor S_IFDIR 1023)
  | creat _ _ => success 3
  | fork => success 4242
  | waitpid pid _ => success pid
  | _ => success 0
  end.

(** The same, with the lock held by another process. *)
Definition contended : env := fun n c =>
  match c with
  | lockf _ _ _ => failure EAGAIN
  | _ => quiet n c
  end.

(** As [quiet], on a file system that cannot lock ([ENOLCK]), with a
    standard error stream on which [perror] leaves [EINVAL] in [errno]
    (as the C library does when the descriptor is open for writing only
    and the stream has not been used). *)
Definition no_locks : env := fun n c =>
  match c with
  | lockf _ _ _ => failure ENOLCK
  | perror _ => mkReply 0 EINVAL 0
  | _ => quiet n c
  end.

(** The same as [quiet], on the child's side of the fork; the command
    cannot be executed ([ENOENT]). *)
Definition child_side : env := fun n c =>
  match c with
  | fork => success 0
  | execvp _ _ => failure ENOENT
  | _ => quiet n c
  end.

(** A command name longer than a path can be. *)
Definition long_name : string :=
  string_of_list_ascii (repeat "a"%char 4076).

(** As [quiet], on a file system that refuses a name of this length. *)
Definition long_names_refused : env := fun n c =>
  match c with
  | creat _ _ => failure ENAMETOOLONG
  | _ => quiet n c
  end.

(** The parent receives [SIGTERM] while it waits for the command. *)
Definition interrupted : list action :=
  repeat Tick 12 ++ [Signal SIGTERM] ++ repeat Tick 6.

(** Three invocations with the same lock file. *)
Definition three : system :=
  invocations 3 ["solo"; "-l"; "/tmp/L"; "sleep"; "100"]%string.

(** The three start together and install their handlers.  Then the first
    runs until it waits for its command, the second runs to its end, and
    the third runs until it waits for its command. *)
Definition one_then_two_then_three : list Z :=
  repeat 1 4 ++ repeat 2 4 ++ repeat 3 4
  ++ repeat 1 7 ++ repeat 2 14 ++ repeat 3 7.

Definition calls_of (pid : Z) (S : system) : list call :=
  match find (fun pc => fst pc =? pid) (procs S) with
  | Some pc => map ev_call (history (snd pc))
  | None => []
  end.

Definition status_of (pid : Z) (S : system) : option status :=
  option_map (fun pc => st (snd pc)) (find (fun pc => fst pc =? pid) (procs S)).

(** ** Vocabulary of the further properties *)

(** The value of [cmd_start] that [main] sets for [argv]. *)
Definition cmd_start_of (argv : list string) : nat :=
  match argv with
  | _ :: a1 :: _ => if is_flag a1 then 3%nat else 1%nat
  | _ => 1%nat
  end.

(** As [reaches], with what [main] returns early and where it goes on. *)
Definition reaches_at (E : env) (argv : list string) (res : result Z) : Prop :=
  (setup_only (trace res) /\
   lockfile_fd (final res) = -1 /\
   exists v, out res = Returned v /\ v <> 0) \/
  (exists pre s lf,
      setup_only pre /\ lockfile s = Some lf /\ lockfile_fd s = -1 /\
      res = prefixed pre (eval E (lock_and_run argv (cmd_start_of argv)) s)).

(** The status with which the process ends, when it ends. *)
Definition exit_code (res : result Z) : option Z :=
  match out res with
  | Returned v => Some v
  | Exited v => Some v
  | Replaced => None
  end.

(** How many calls of a kind a trace has. *)
Definition count_calls (kind : call -> bool) (t : list event) : nat :=
  List.length (filter (fun e => kind (ev_call e)) t).

Definition is_creat (c : call) : bool :=
  match c with creat _ _ => true | _ => false end.

Definition is_lockf (c : call) : bool :=
  match c with lockf _ _ _ => true | _ => false end.

Definition is_fork (c : call) : bool :=
  match c with fork => true | _ => false end.

Definition is_waitpid (c : call) : bool :=
  match c with waitpid _ _ => true | _ => false end.

(** The calls that start the command or wait for it. *)
Definition is_launch (c : call) : bool :=
  is_fork c || is_exec c || is_waitpid c.

(** A system whose failures carry an error number, and whose [fork]
    returns a process number or -1. *)
Definition sane (E : env) : Prop :=
  forall n c,
    (ret (E n c) = -1 -> err (E n c) <> 0) /\
    (c = fork -> -1 <= ret (E n c)).

(** The calls [main] makes before it installs the handlers. *)
Definition before_handlers (e : event) : Prop :=
  match ev_call e with
  | stat _ | perror _ | fprintf_stderr _ | printf _ => True
  | _ => False
  end.

(** [main] up to [main_tail]: it returns 1 with nothing installed, or goes
    on with a lock file recorded. *)
Definition reaches_tail_at (E : env) (argv : list string) (res : result Z)
  : Prop :=
  (Forall before_handlers (trace res) /\
   out res = Returned 1 /\
   lockfile_fd (final res) = -1 /\ handlers (final res) = []) \/
  (exists pre s lf,
      Forall before_handlers pre /\ Forall not_usage pre /\
      lockfile s = Some lf /\ lockfile_fd s = -1 /\ handlers s = [] /\
      res = prefixed pre (eval E (main_tail argv (cmd_start_of argv)) s)).

(** The arguments for which [main] prints the usage. *)
Definition usage_error (argv : list string) : bool :=
  match argv with
  | [] | [_] => true
  | [_; a1] => is_flag a1
  | _ => false
  end.

(** The calls of [lock_and_run]. *)
Definition locking_call (e : event) : Prop :=
  match ev_call e with
  | stat _ | sigaction _ | printf _ => False
  | _ => True
  end.

(** As [quiet], with a [waitpid] that returns the child whatever it is
    asked for. *)
Definition steady : env := fun n c =>
  match c with
  | waitpid _ _ => success 4242
  | _ => quiet n c
  end.

(** The calls of [get_lockdir]. *)
Definition probe_call (e : event) : Prop :=
  match ev_call e with
  | stat _ | perror _ => True
  | _ => False
  end.

(** * Properties *)

Open Scope list_scope.

(** ** Running sequenced programs *)

Lemma eval_bind {A B : Type} (E : env) (p : prog A) (f : A -> prog B) :
  forall s, eval E (bind p f) s = then_run (eval E p s) (fun a => eval E (f a)).
Proof.
  induction p as [a | x | c k IH | k IH | g k IH]; intros s; simpl.
  - unfold then_run; simpl. now destruct (eval E (f a) s).
  - reflexivity.
  - destruct (is_exec c && negb (ret (E (ncalls s) c) =? -1))%bool;
      [reflexivity|].
    rewrite IH. unfold then_run, emit; simpl.
    now destruct (out (eval E (k (E (ncalls s) c)) _)).
  - apply IH.
  - apply IH.
Qed.

Lemma graceful_exit_never_returns {A : Type} (status : Z) :
  never_returns (@graceful_exit A status).
Proof.
  unfold graceful_exit; simpl. intros s.
  destruct (lockfile s); simpl; intros;
    repeat match goal with
           | |- context [if ?b then _ else _] => destruct b; simpl; intros
           end; exact I.
Qed.

Lemma graceful_exit_eval {A : Type} (E : env) (status : Z) (s : pstate) :
  let r := eval E (@graceful_exit A status) s in
  out r = Exited status /\
  map ev_call (trace r) = release_calls s /\
  lockfile (final r) = lockfile s /\
  lockfile_fd (final r) = lockfile_fd s.
Proof.
  unfold graceful_exit, release_calls; simpl.
  destruct (lockfile s) eqn:Hl; simpl;
    destruct (lockfile_fd s =? -1) eqn:Hfd; simpl; auto.
Qed.

(** ** The lock directory *)

(** C6, as stated, fails: when both /var/lock and /tmp are probed with
    success and neither is a directory, [get_lockdir] returns the fallback
    ".". *)
Lemma C6_fallback_returned :
  out (eval plain_files get_lockdir initial) = Returned (Some ".").
Proof. reflexivity. Qed.

(** C6, amended: the search stops at the first candidate that is a
    directory and fails at the first probe error; a candidate that is
    probed with success and is not a directory is skipped, and the fallback
    "." is returned exactly when both candidates are probed with success
    and neither is a directory. *)
Theorem C6_get_lockdir (E : env) (s : pstate) :
  let r1 := E (ncalls s) (stat "/var/lock") in
  let r2 := E (S (ncalls s)) (stat "/tmp") in
  let res := eval E get_lockdir s in
  (out res, map ev_call (trace res)) =
    (if negb (ret r1 =? 0) then
       (Returned None, [stat "/var/lock"; perror "stat"])
     else if S_ISDIR (st_mode r1) then
       (Returned (Some "/var/lock"), [stat "/var/lock"])
     else if negb (ret r2 =? 0) then
       (Returned None, [stat "/var/lock"; stat "/tmp"; perror "stat"])
     else if S_ISDIR (st_mode r2) then
       (Returned (Some "/tmp"), [stat "/var/lock"; stat "/tmp"])
     else
       (Returned (Some "."), [stat "/var/lock"; stat "/tmp"]))
  /\ (out res = Returned (Some ".") <->
      ret r1 = 0 /\ S_ISDIR (st_mode r1) = false /\
      ret r2 = 0 /\ S_ISDIR (st_mode r2) = false).
Proof.
  unfold get_lockdir, paths; simpl.
  destruct (ret (E (ncalls s) (stat "/var/lock")) =? 0) eqn:H1; simpl.
  2:{ split; [reflexivity|]. split; [discriminate|].
      intros (H & _). apply Z.eqb_neq in H1. contradiction. }
  apply Z.eqb_eq in H1.
  destruct (S_ISDIR (st_mode (E (ncalls s) (stat "/var/lock")))) eqn:D1; simpl.
  { split; [reflexivity|]. split; [discriminate|].
    intros (_ & H & _); discriminate. }
  destruct (ret (E (S (ncalls s)) (stat "/tmp")) =? 0) eqn:H2; simpl.
  2:{ split; [reflexivity|]. split; [discriminate|].
      intros (_ & _ & H & _). apply Z.eqb_neq in H2. contradiction. }
  apply Z.eqb_eq in H2.
  destruct (S_ISDIR (st_mode (E (S (ncalls s)) (stat "/tmp")))) eqn:D2; simpl.
  { split; [reflexivity|]. split; [discriminate|].
    intros (_ & _ & _ & H); discriminate. }
  split; [reflexivity|]. split; auto.
Qed.

(** ** Symbolic execution

    A program applied to an environment that is a variable is run by
    cases on the tests the program makes on the replies. *)

Ltac split_atom b :=
  lazymatch b with
  | negb ?x => split_atom x
  | orb ?x _ => split_atom x
  | andb ?x _ => split_atom x
  | _ => destruct b eqn:?
  end.

Ltac split_if :=
  match goal with
  | |- context [if ?b then _ else _] =>
      lazymatch b with
      | context [if _ then _ else _] => fail
      | _ => split_atom b
      end
  end.

Ltac use_known :=
  match goal with
  | H : ?b = true |- context [if ?b then _ else _] => rewrite H
  | H : ?b = false |- context [if ?b then _ else _] => rewrite H
  | H : ?b = true |- context [negb ?b] => rewrite H
  | H : ?b = false |- context [negb ?b] => rewrite H
  end.

Ltac run_sym := simpl; repeat (first [use_known | split_if]; simpl).

(** The event of a hypothesis [In e trace] is found among the calls made. *)
Ltac pick H :=
  repeat (destruct H as [H | H]; [try discriminate H|]); try contradiction.

Ltac by_tests :=
  repeat match goal with
         | H : _ = true |- _ => rewrite H
         | H : _ = false |- _ => rewrite H
         end; simpl; auto.

Ltac absurd_tests :=
  repeat match goal with
         | H : (_ =? _) = true |- _ => apply Z.eqb_eq in H
         | H : (_ =? _) = false |- _ => apply Z.eqb_neq in H
         end; congruence.

Ltac with_lockfile s Hl :=
  let l := fresh "l" in
  destruct s as [l ? ? ? ?]; simpl in Hl; subst l.

(** ** From the creation of the lock file on *)

Section LockAndRun.

Variable E : env.
Variable argv : list string.
Variable cmd_start : nat.
Variable s : pstate.
Variable lf : string.
Hypothesis recorded : lockfile s = Some lf.

Let res : result Z := eval E (lock_and_run argv cmd_start) s.

Lemma lock_and_run_lock_failure (fd : Z) (r : reply) :
  In (Ev (lockf fd F_TLOCK 0) r) (trace res) -> ret r = -1 ->
  exists m,
    In (Ev (lock_failure_text (err r)) m) (trace res) /\
    out res = Exited (errno_after (lock_failure_text (err r)) m (err r)) /\
    lockfile_fd (final res) = fd /\
    map ev_call (trace res) =
      [creat (Some lf) S_IWUSR; lockf fd F_TLOCK 0; lock_failure_text (err r);
       unlink (Some lf); close fd].
Proof.
  subst res. revert fd r. with_lockfile s recorded.
  unfold lock_and_run, graceful_exit, lock_failure_text. run_sym.
  all: intros fd r H Hr; pick H.
  all: injection H as <- <-.
  all: try absurd_tests.
  all: eexists; split; [by_tests; simpl; eauto 10|]; by_tests.
Qed.

Lemma lock_and_run_wait_success (pid : Z) (r : reply) :
  In (Ev (waitpid pid 0) r) (trace res) -> ret r <> -1 ->
  out res = Exited 0 /\
  exists fd,
    lockfile_fd (final res) = fd /\
    map ev_call (trace res) =
      [creat (Some lf) S_IWUSR; lockf fd F_TLOCK 0; fork; waitpid pid 0;
       unlink (Some lf); close fd].
Proof.
  subst res. revert pid r. with_lockfile s recorded.
  unfold lock_and_run, graceful_exit. run_sym.
  all: intros pid r H Hr; pick H.
  all: injection H as <- <-.
  all: try absurd_tests.
  all: split; [reflexivity|eexists; split; reflexivity].
Qed.

Lemma lock_and_run_child (r : reply) :
  In (Ev fork r) (trace res) -> ret r = 0 ->
  exists fd x,
    In (Ev (execvp (arg argv cmd_start) (skipn cmd_start argv)) x) (trace res) /\
    map ev_call (trace res) =
      [creat (Some lf) S_IWUSR; lockf fd F_TLOCK 0; fork; close fd;
       execvp (arg argv cmd_start) (skipn cmd_start argv)]
      ++ (if ret x =? -1 then [perror "failed to exec program"] else []) /\
    if ret x =? -1 then
      exists m,
        In (Ev (perror "failed to exec program") m) (trace res) /\
        out res =
          Returned (errno_after (perror "failed to exec program") m (err x))
    else out res = Replaced.
Proof.
  subst res. revert r. with_lockfile s recorded.
  unfold lock_and_run, graceful_exit. run_sym.
  all: intros r H Hr; pick H.
  all: injection H as <-.
  all: try absurd_tests.
  all: eexists; eexists; split; [simpl; eauto 10|]; by_tests.
  all: split; [reflexivity|]; eexists; split; [eauto 10|]; by_tests.
Qed.

Lemma lock_and_run_paths :
  Forall (event_ok lf (arg argv cmd_start) (skipn cmd_start argv)) (trace res) /\
  Forall (fun e => not_stat e /\ not_usage e) (trace res) /\
  lockfile (final res) = Some lf /\
  exists r t, trace res = Ev (creat (Some lf) S_IWUSR) r :: t.
Proof.
  subst res. with_lockfile s recorded.
  unfold lock_and_run, graceful_exit. run_sym.
  all: split; [repeat constructor|
               split; [repeat constructor|split; [reflexivity|eauto]]].
Qed.

Lemma lock_and_run_no_stat : no_stat (trace res).
Proof.
  destruct lock_and_run_paths as (_ & H & _).
  eapply Forall_impl; [|exact H]. now intros e [? _].
Qed.

End LockAndRun.

(** ** Before the creation of the lock file *)

Lemma handler_call_not_stat (t : list event) :
  Forall handler_call t -> no_stat t.
Proof.
  intros H. eapply Forall_impl; [|exact H].
  intros e. unfold handler_call, not_stat. now destruct (ev_call e).
Qed.

Lemma install_eval (E : env) (s : pstate) :
  let r := eval E install_signal_handlers s in
  (exists v, out r = Returned v) /\
  setup_only (trace r) /\ Forall handler_call (trace r) /\
  lockfile (final r) = lockfile s /\
  lockfile_fd (final r) = lockfile_fd s.
Proof.
  unfold install_signal_handlers, signals, setup_only. run_sym.
  all: repeat split; eauto; repeat constructor.
Qed.

Lemma get_lockdir_eval (E : env) (s : pstate) :
  let r := eval E get_lockdir s in
  (exists d, out r = Returned d) /\
  setup_only (trace r) /\
  lockfile (final r) = lockfile s /\
  lockfile_fd (final r) = lockfile_fd s.
Proof.
  unfold get_lockdir, paths, setup_only. run_sym.
  all: repeat split; eauto; repeat constructor.
Qed.

(** [main_tail] returns after the handlers, or goes on to
    [lock_and_run] with the globals it was given. *)
Lemma main_tail_reaches (E : env) (argv : list string) (cs : nat) (s : pstate) :
  let res := eval E (main_tail argv cs) s in
  exists pre,
    setup_only pre /\ Forall handler_call pre /\
    ((trace res = pre /\ (exists v, out res = Returned v) /\
      lockfile (final res) = lockfile s)
     \/
     (exists s', lockfile s' = lockfile s /\ lockfile_fd s' = lockfile_fd s /\
                 res = prefixed pre (eval E (lock_and_run argv cs) s'))).
Proof.
  unfold main_tail. rewrite eval_bind.
  destruct (install_eval E s) as ((v & Hv) & Hs & Hn & Hl & Hf).
  exists (trace (eval E install_signal_handlers s)).
  split; [exact Hs|]. split; [exact Hn|].
  unfold then_run. rewrite Hv.
  destruct (negb (v =? 0)); simpl.
  - left. rewrite app_nil_r. eauto.
  - right. eexists. split; [exact Hl|]. split; [exact Hf|]. reflexivity.
Qed.

Lemma prefixed_app {A : Type} (p q : list event) (r : result A) :
  prefixed p (prefixed q r) = prefixed (p ++ q) r.
Proof. unfold prefixed; simpl. now rewrite app_assoc. Qed.

Lemma setup_only_app (p q : list event) :
  setup_only p -> setup_only q -> setup_only (p ++ q).
Proof. unfold setup_only. intros; apply Forall_app; auto. Qed.

(** With the flag, [main] records [argv[2]] and goes on at [argv[3]]. *)
Lemma main_flag (E : env) (a0 flag lfile : string) (rest : list string) :
  flag = "-l"%string \/ flag = "--lockfile"%string ->
  run_main E (a0 :: flag :: lfile :: rest) =
    eval E (main_tail (a0 :: flag :: lfile :: rest) 3)
         (set_lockfile (Some lfile) initial).
Proof. intros [-> | ->]; reflexivity. Qed.

Lemma main_auto (E : env) (a0 cmd : string) (rest : list string) :
  is_flag cmd = false ->
  run_main E (a0 :: cmd :: rest) =
    then_run (eval E get_lockdir initial) (derive E (a0 :: cmd :: rest) cmd).
Proof.
  intros F. unfold run_main, main. simpl List.length. cbv iota.
  change (cstr_eqb (arg (a0 :: cmd :: rest) 1) "-l"
          || cstr_eqb (arg (a0 :: cmd :: rest) 1) "--lockfile")
    with (is_flag cmd).
  rewrite F.
  change (S (S (List.length rest)) <? 2)%nat with false. cbv iota.
  rewrite eval_bind. unfold then_run.
  destruct (out (eval E get_lockdir initial)) as [d | x |]; try reflexivity.
  unfold derive. destruct d as [D|]; [|reflexivity].
  simpl arg. simpl text.
  destruct (String.eqb (basename cmd) EmptyString); [reflexivity|].
  unfold snprintf_lock.
  destruct (Z.of_nat (String.length (lock_path D (basename cmd))) >=? PATH_MAX);
    reflexivity.
Qed.

Lemma is_flag_true (a : string) :
  is_flag a = true -> a = "-l"%string \/ a = "--lockfile"%string.
Proof.
  unfold is_flag. intros H. apply orb_true_iff in H.
  destruct H as [H | H]; apply String.eqb_eq in H; auto.
Qed.

Lemma is_flag_false (a : string) :
  is_flag a = false -> a <> "-l"%string /\ a <> "--lockfile"%string.
Proof.
  unfold is_flag. intros H. apply orb_false_iff in H.
  destruct H as [H1 H2]. apply String.eqb_neq in H1, H2. auto.
Qed.

Lemma reaches_tail (E : env) (argv : list string) (cs : nat) (s : pstate)
    (lf : string) (pre0 : list event) :
  setup_only pre0 -> lockfile s = Some lf ->
  reaches E argv (prefixed pre0 (eval E (main_tail argv cs) s)).
Proof.
  intros H0 Hl.
  destruct (main_tail_reaches E argv cs s)
    as (pre & Hs & _ & [(Ht & Hv & _) | (s' & Hl' & _ & Hr)]).
  - left. unfold prefixed. cbn [trace out]. rewrite Ht.
    split; [now apply setup_only_app | exact Hv].
  - right. exists (pre0 ++ pre), s', lf, cs.
    split; [now apply setup_only_app|]. split; [congruence|].
    rewrite Hr. apply prefixed_app.
Qed.

Lemma reaches_early (E : env) (argv : list string) (pre0 : list event)
    (r : result Z) :
  setup_only pre0 -> setup_only (trace r) -> (exists v, out r = Returned v) ->
  reaches E argv (prefixed pre0 r).
Proof.
  intros H0 Ht Hv. left. unfold prefixed. cbn [trace out].
  split; [now apply setup_only_app | exact Hv].
Qed.

Lemma eval_sys_put {A : Type} (E : env) (c : call) (f : pstate -> pstate)
    (k : prog A) (s : pstate) :
  is_exec c = false ->
  eval E (sys c ;; put f ;; k) s =
    prefixed [Ev c (E (ncalls s) c)]
             (eval E k (f (after_call c (E (ncalls s) c) s))).
Proof. intros H. simpl. rewrite H. reflexivity. Qed.

Lemma prefixed_nil {A : Type} (r : result A) : prefixed [] r = r.
Proof. now destruct r. Qed.

Lemma main_reaches (E : env) (argv : list string) :
  reaches E argv (run_main E argv).
Proof.
  destruct argv as [|a0 [|a1 rest]].
  - left. simpl. split; [repeat constructor | eauto].
  - left. simpl. split; [repeat constructor | eauto].
  - destruct (is_flag a1) eqn:F.
    + destruct rest as [|lfile rest].
      * left. unfold run_main, main. simpl List.length. cbv iota.
        change (cstr_eqb (arg [a0; a1] 1) "-l"
                || cstr_eqb (arg [a0; a1] 1) "--lockfile") with (is_flag a1).
        rewrite F. simpl. split; [repeat constructor | eauto].
      * rewrite main_flag by now apply is_flag_true.
        rewrite <- prefixed_nil.
        apply reaches_tail with (lf := lfile); [constructor | reflexivity].
    + rewrite main_auto by exact F.
      destruct (get_lockdir_eval E initial) as ((d & Hd) & Hs & Hl & Hf).
      unfold then_run. rewrite Hd.
      set (s1 := final (eval E get_lockdir initial)) in *.
      set (t1 := trace (eval E get_lockdir initial)) in *.
      change (reaches E (a0 :: a1 :: rest)
                (prefixed t1 (derive E (a0 :: a1 :: rest) a1 d s1))).
      unfold derive. destruct d as [D|].
      * destruct (String.eqb (basename a1) EmptyString).
        { apply reaches_early;
            [exact Hs | simpl; repeat constructor | simpl; eauto]. }
        destruct (_ >=? PATH_MAX).
        { rewrite eval_sys_put by reflexivity.
          rewrite prefixed_app.
          eapply reaches_tail;
            [apply setup_only_app; [exact Hs | repeat constructor]
            | reflexivity]. }
        eapply reaches_tail; [exact Hs | reflexivity].
      * apply reaches_early;
          [exact Hs | simpl; repeat constructor | simpl; eauto].
Qed.

Lemma setup_only_not_in (pre : list event) (e : event) :
  setup_only pre -> is_setup (ev_call e) = false -> ~ In e pre.
Proof.
  intros Hs He Hin. unfold setup_only in Hs.
  rewrite Forall_forall in Hs. apply Hs in Hin. congruence.
Qed.

Lemma in_after_setup (pre t : list event) (e : event) :
  setup_only pre -> is_setup (ev_call e) = false ->
  In e (pre ++ t) -> In e t.
Proof.
  intros Hs He Hin. apply in_app_or in Hin.
  destruct Hin as [Hin | Hin]; [|exact Hin].
  now apply setup_only_not_in in Hin.
Qed.

(** ** Failure of the lock *)

(** The value that an output call leaves in [errno]. *)
Lemma errno_after_message (e e' : Z) (m : reply) :
  errno_after (lock_failure_text e) m e' = if err m =? 0 then e' else err m.
Proof. unfold lock_failure_text. now destruct (_ || _). Qed.

(** X18: when [lockf (fd, F_TLOCK, 0)] fails, the program prints "Another
    instance is already running" if [errno] is [EACCES] or [EAGAIN] and
    the [perror] text otherwise, then unlinks the lock file, closes the
    descriptor and exits with [errno] as the message call has left it:
    the error of [lockf] when that call has not changed [errno]. *)
Theorem X18_lock_failure (E : env) (argv : list string) (fd : Z) (r : reply) :
  let res := run_main E argv in
  In (Ev (lockf fd F_TLOCK 0) r) (trace res) ->
  ret r = -1 ->
  exists pre lf message m,
    lockfile (final res) = Some lf /\
    lockfile_fd (final res) = fd /\
    map ev_call (trace res) =
      pre ++ [lockf fd F_TLOCK 0; message; unlink (Some lf); close fd] /\
    (err r = EACCES \/ err r = EAGAIN ->
     message = fprintf_stderr
                 ("Another instance is already running" ++ nl)%string) /\
    (err r <> EACCES -> err r <> EAGAIN ->
     message = perror "cannot take lock") /\
    In (Ev message m) (trace res) /\
    out res = Exited (if err m =? 0 then err r else err m).
Proof.
  intros res Hin Hr. subst res.
  destruct (main_reaches E argv) as [(Hs & _) | (pre & s & lf & cs & Hs & Hl & Hres)].
  - exfalso. revert Hin. now apply setup_only_not_in.
  - rewrite Hres in *. unfold prefixed in *. cbn [trace out final] in *.
    apply in_after_setup in Hin; [|exact Hs|reflexivity].
    destruct (lock_and_run_lock_failure E argv cs s lf Hl fd r Hin Hr)
      as (m & Hm & Ho & Hfd & Ht).
    destruct (lock_and_run_paths E argv cs s lf Hl) as (_ & _ & Hlf & _).
    exists (map ev_call pre ++ [creat (Some lf) S_IWUSR]), lf,
           (lock_failure_text (err r)), m.
    split; [exact Hlf|]. split; [exact Hfd|]. split.
    + rewrite map_app, Ht, <- app_assoc. reflexivity.
    + unfold lock_failure_text at 1 2. split; [|split; [|split]].
      * intros [-> | ->]; reflexivity.
      * intros H1 H2. apply Z.eqb_neq in H1, H2. now rewrite H1, H2.
      * apply in_or_app. now right.
      * now rewrite Ho, errno_after_message.
Qed.

Lemma X18_lock_failure_witness :
  In (Ev (lockf 3 F_TLOCK 0) (failure EAGAIN))
     (trace (run_main contended ["solo"; "sleep"; "100"]%string)) /\
  ret (failure EAGAIN) = -1 /\
  exists m,
    out (run_main contended ["solo"; "sleep"; "100"]%string) =
      Exited (if err m =? 0 then EAGAIN else err m).
Proof.
  split; [simpl; auto 10|]. split; [reflexivity|].
  destruct (X18_lock_failure contended ["solo"; "sleep"; "100"]%string 3
                             (failure EAGAIN))
    as (_ & _ & _ & m & _ & _ & _ & _ & _ & _ & H).
  - simpl; auto 10.
  - reflexivity.
  - exists m. exact H.
Defined.

(** C3: the exit status is not always the error of the lock.  On a file
    system that cannot lock, [lockf] fails with [ENOLCK]; [perror] prints
    the message and leaves [EINVAL] in [errno]; the program reads [errno]
    after [perror], releases, and exits with [EINVAL]. *)
Theorem C3_status_after_perror :
  let res := run_main no_locks ["solo"; "-l"; "/tmp/L"; "sleep"; "100"]%string in
  trace res =
    [Ev (sigaction SIGHUP) (success 0); Ev (sigaction SIGINT) (success 0);
     Ev (sigaction SIGTERM) (success 0);
     Ev (creat (Some "/tmp/L"%string) S_IWUSR) (success 3);
     Ev (lockf 3 F_TLOCK 0) (failure ENOLCK);
     Ev (perror "cannot take lock") (mkReply 0 EINVAL 0);
     Ev (unlink (Some "/tmp/L"%string)) (success 0);
     Ev (close 3) (success 0)] /\
  out res = Exited EINVAL /\
  EINVAL <> ENOLCK.
Proof. split; [reflexivity|]. split; [reflexivity|discriminate]. Qed.

(** ** The end of the command *)

(** C4: when [waitpid] on the child succeeds, the parent unlinks the lock
    file, closes the descriptor and exits with status 0, whatever the
    reply of [waitpid] is otherwise: the status of the child is not asked
    for (the second argument of [waitpid] is [NULL]) and no part of the
    reply reaches the exit status. *)
Theorem C4_exit_zero_after_wait (E : env) (argv : list string) (pid : Z)
    (r : reply) :
  let res := run_main E argv in
  In (Ev (waitpid pid 0) r) (trace res) ->
  ret r <> -1 ->
  out res = Exited 0 /\
  exists pre lf fd,
    lockfile (final res) = Some lf /\
    lockfile_fd (final res) = fd /\
    map ev_call (trace res) =
      pre ++ [fork; waitpid pid 0; unlink (Some lf); close fd].
Proof.
  intros res Hin Hr. subst res.
  destruct (main_reaches E argv) as [(Hs & _) | (pre & s & lf & cs & Hs & Hl & Hres)].
  - exfalso. revert Hin. now apply setup_only_not_in.
  - rewrite Hres in *. unfold prefixed in *. cbn [trace out final] in *.
    apply in_after_setup in Hin; [|exact Hs|reflexivity].
    destruct (lock_and_run_wait_success E argv cs s lf Hl pid r Hin Hr)
      as (Ho & fd & Hfd & Ht).
    destruct (lock_and_run_paths E argv cs s lf Hl) as (_ & _ & Hlf & _).
    split; [exact Ho|].
    exists (map ev_call pre ++ [creat (Some lf) S_IWUSR; lockf fd F_TLOCK 0]),
           lf, fd.
    split; [exact Hlf|]. split; [exact Hfd|].
    rewrite map_app, Ht, <- app_assoc. reflexivity.
Qed.

Lemma C4_exit_zero_after_wait_witness :
  In (Ev (waitpid 4242 0) (success 4242))
     (trace (run_main quiet ["solo"; "sleep"; "100"]%string)) /\
  ret (success 4242) <> -1 /\
  out (run_main quiet ["solo"; "sleep"; "100"]%string) = Exited 0.
Proof.
  split; [simpl; auto 10|]. split; [discriminate|].
  apply (C4_exit_zero_after_wait quiet ["solo"; "sleep"; "100"]%string 4242
                                 (success 4242)).
  - simpl; auto 10.
  - discriminate.
Defined.

(** ** The choice of the lock file *)

Lemma setup_event_ok (lf : string) (file : cstr) (args : list string)
    (e : event) :
  is_setup (ev_call e) = true -> event_ok lf file args e.
Proof. unfold event_ok. now destruct (ev_call e). Qed.

Lemma setup_only_ok (lf : string) (file : cstr) (args : list string)
    (t : list event) :
  setup_only t -> Forall (event_ok lf file args) t.
Proof.
  unfold setup_only. intros H. eapply Forall_impl; [|exact H].
  intros e. apply setup_event_ok.
Qed.

(** From the handlers on, the lock file recorded is the only one used. *)
Lemma main_tail_events (E : env) (argv : list string) (cs : nat) (s : pstate)
    (lf : string) :
  lockfile s = Some lf ->
  let res := eval E (main_tail argv cs) s in
  Forall (event_ok lf (arg argv cs) (skipn cs argv)) (trace res) /\
  no_stat (trace res) /\
  lockfile (final res) = Some lf.
Proof.
  intros Hl res. subst res.
  destruct (main_tail_reaches E argv cs s)
    as (pre & Hs & Hn & [(Ht & _ & Hf) | (s' & Hl' & _ & Hr)]).
  - rewrite Ht. split; [now apply setup_only_ok|].
    split; [now apply handler_call_not_stat | congruence].
  - rewrite Hr. unfold prefixed. cbn [trace final].
    assert (Hl2 : lockfile s' = Some lf) by congruence.
    destruct (lock_and_run_paths E argv cs s' lf Hl2) as (Ho & _ & Hf & _).
    pose proof (lock_and_run_no_stat E argv cs s' lf Hl2) as Hns.
    split; [apply Forall_app; split; [now apply setup_only_ok | exact Ho]|].
    split; [apply Forall_app; split;
            [now apply handler_call_not_stat | assumption]
           | exact Hf].
Qed.

Lemma substring_whole (t : string) (n : nat) :
  (String.length t <= n)%nat -> substring 0 n t = t.
Proof.
  revert n. induction t as [|c t IH]; intros n H.
  - now destruct n.
  - destruct n as [|n]; simpl in *; [lia|]. rewrite IH; [reflexivity | lia].
Qed.

(** What [main] records without the flag, by the cases of [derive]. *)
Lemma derive_events (E : env) (argv : list string) (cmd D : string)
    (s : pstate) :
  let res := derive E argv cmd (Some D) s in
  let lf := fst (snprintf_lock PATH_MAX D (basename cmd)) in
  Forall (event_ok lf (arg argv 1) (skipn 1 argv)) (trace res) /\
  (basename cmd <> EmptyString -> lockfile (final res) = Some lf).
Proof.
  unfold derive.
  destruct (String.eqb (basename cmd) EmptyString) eqn:B.
  - apply String.eqb_eq in B. simpl. split; [repeat constructor | congruence].
  - destruct (_ >=? PATH_MAX).
    + rewrite eval_sys_put by reflexivity.
      unfold prefixed. cbn [trace final].
      edestruct (main_tail_events E argv 1) as (Ho & _ & Hf);
        [|split; [constructor; [exact I | exact Ho] | intros _; exact Hf]].
      reflexivity.
    + edestruct (main_tail_events E argv 1) as (Ho & _ & Hf);
        [|split; [exact Ho | intros _; exact Hf]].
      reflexivity.
Qed.

(** C7: when the first argument is -l or --lockfile, the lock file is the
    second argument as it stands: [main] records it, probes no directory,
    gives no other path to [creat] and [unlink], and executes the
    arguments after it.  Only the first argument is compared with the
    flag: when the flag and a lock file come after a command, they are
    passed to the command with the other arguments, and the lock file is
    derived from the command. *)
Theorem C7_explicit_lockfile (E : env) (a0 flag lfile : string)
    (rest : list string) :
  flag = "-l"%string \/ flag = "--lockfile"%string ->
  let res := run_main E (a0 :: flag :: lfile :: rest) in
  lockfile (final res) = Some lfile /\
  (forall e, In e (trace res) ->
     match ev_call e with
     | stat _ => False
     | creat p _ => p = Some lfile
     | unlink p => p = Some lfile
     | execvp file args => file = nth_error rest 0 /\ args = rest
     | _ => True
     end) /\
  (forall cmd e,
     is_flag cmd = false ->
     In e (trace (run_main E (a0 :: cmd :: flag :: lfile :: rest))) ->
     match ev_call e with
     | creat p _ | unlink p =>
         exists D, p = Some (fst (snprintf_lock PATH_MAX D (basename cmd)))
     | execvp file args =>
         file = Some cmd /\ args = cmd :: flag :: lfile :: rest
     | _ => True
     end).
Proof.
  intros Hflag res. subst res. rewrite main_flag by exact Hflag.
  destruct (main_tail_events E (a0 :: flag :: lfile :: rest) 3
              (set_lockfile (Some lfile) initial) lfile eq_refl)
    as (Ho & Hn & Hf).
  split; [exact Hf|]. split.
  - intros e Hin.
    unfold no_stat in Hn. rewrite Forall_forall in Ho, Hn.
    specialize (Ho e Hin). specialize (Hn e Hin).
    unfold event_ok, not_stat in *. simpl in Ho.
    destruct (ev_call e); auto.
  - intros cmd e F Hin. rewrite main_auto in Hin by exact F.
    destruct (get_lockdir_eval E initial) as ((d & Hd) & Hs & _).
    unfold then_run in Hin. rewrite Hd in Hin. cbn [trace] in Hin.
    apply in_app_or in Hin. destruct Hin as [Hin | Hin].
    + unfold setup_only in Hs. rewrite Forall_forall in Hs.
      specialize (Hs e Hin). now destruct (ev_call e).
    + destruct d as [D|].
      * destruct (derive_events E (a0 :: cmd :: flag :: lfile :: rest) cmd D
                    (final (eval E get_lockdir initial))) as (Ho' & _).
        rewrite Forall_forall in Ho'. specialize (Ho' e Hin).
        unfold event_ok in Ho'.
        destruct (ev_call e); try exact I; try (exists D; exact Ho').
        exact Ho'.
      * simpl in Hin. destruct Hin as [<- | []]. exact I.
Qed.

Lemma C7_explicit_lockfile_witness :
  ("-l"%string = "-l"%string \/ "-l"%string = "--lockfile"%string) /\
  lockfile (final (run_main quiet ["solo"; "-l"; "/tmp/L"; "ls"; "-l"]%string))
    = Some "/tmp/L"%string.
Proof.
  split; [now left|].
  apply (C7_explicit_lockfile quiet "solo" "-l" "/tmp/L" ["ls"; "-l"]%string).
  now left.
Defined.

Lemma snprintf_lock_fits (D name : string) :
  Z.of_nat (String.length (lock_path D name)) < PATH_MAX ->
  fst (snprintf_lock PATH_MAX D name) = lock_path D name.
Proof.
  intros H. unfold snprintf_lock. cbn [fst].
  apply substring_whole. unfold PATH_MAX in *. lia.
Qed.

(** C8, as stated, fails: with the lock directory resolved to /var/lock and
    a command name of 4076 characters, the lock file recorded is not
    /var/lock/solo-lock- followed by the name. *)
Lemma C8_long_name_not_derived :
  is_flag long_name = false /\
  out (eval quiet get_lockdir initial) = Returned (Some "/var/lock"%string) /\
  basename long_name = long_name /\
  lockfile (final (run_main quiet ["solo"%string; long_name]))
    <> Some ("/var/lock" ++ "/solo-lock-" ++ long_name)%string.
Proof.
  split; [reflexivity|]. split; [reflexivity|]. split; [now vm_compute|].
  intros H. apply (f_equal (option_map String.length)) in H.
  vm_compute in H. discriminate H.
Qed.

(** C8, amended: without the flag, with the lock directory resolved to [D]:
    when the basename of the command is not empty and
    [D]/solo-lock-basename is shorter than [PATH_MAX], that path is the
    lock file recorded and the only path given to [creat] and [unlink];
    when the basename is empty, [main] prints "Invalid program name" with
    the command and returns 1 without creating a file. *)
Theorem C8_derived_lockfile (E : env) (a0 cmd : string) (rest : list string)
    (D : string) :
  is_flag cmd = false ->
  out (eval E get_lockdir initial) = Returned (Some D) ->
  let res := run_main E (a0 :: cmd :: rest) in
  let derived := (D ++ "/solo-lock-" ++ basename cmd)%string in
  (basename cmd <> EmptyString ->
   Z.of_nat (String.length derived) < PATH_MAX ->
   lockfile (final res) = Some derived /\
   forall e, In e (trace res) ->
     match ev_call e with
     | creat p _ | unlink p => p = Some derived
     | _ => True
     end) /\
  (basename cmd = EmptyString ->
   out res = Returned 1 /\
   lockfile (final res) = None /\
   exists r,
     trace res =
       trace (eval E get_lockdir initial)
       ++ [Ev (fprintf_stderr ("Invalid program name " ++ cmd ++ nl)%string) r] /\
     forall e, In e (trace res) -> is_setup (ev_call e) = true).
Proof.
  intros F Hd res derived. subst res.
  rewrite main_auto by exact F.
  destruct (get_lockdir_eval E initial) as (_ & Hs & Hl & _).
  unfold then_run. rewrite Hd. cbn [trace final out]. split.
  - intros Hb Hlen.
    destruct (derive_events E (a0 :: cmd :: rest) cmd D
                (final (eval E get_lockdir initial))) as (Ho & Hf).
    rewrite snprintf_lock_fits in Ho, Hf by exact Hlen.
    split; [exact (Hf Hb)|].
    intros e Hin. apply in_app_or in Hin. destruct Hin as [Hin | Hin].
    + unfold setup_only in Hs. rewrite Forall_forall in Hs.
      specialize (Hs e Hin). now destruct (ev_call e).
    + rewrite Forall_forall in Ho. specialize (Ho e Hin).
      unfold event_ok in Ho. destruct (ev_call e); auto.
  - intros Hb. unfold derive. rewrite Hb.
    generalize dependent (eval E get_lockdir initial). intros r0 _ Hs Hl.
    simpl.
    split; [reflexivity|]. split; [exact Hl|].
    eexists. split; [reflexivity|].
    intros e Hin. apply in_app_or in Hin. destruct Hin as [Hin | Hin].
    + unfold setup_only in Hs. rewrite Forall_forall in Hs. now apply Hs.
    + destruct Hin as [<- | []]. reflexivity.
Qed.

Lemma C8_derived_lockfile_witness :
  is_flag "/usr/bin/sleep" = false /\
  out (eval quiet get_lockdir initial) = Returned (Some "/var/lock"%string) /\
  lockfile (final (run_main quiet ["solo"; "/usr/bin/sleep"; "100"]%string))
    = Some "/var/lock/solo-lock-sleep"%string.
Proof.
  split; [reflexivity|]. split; [reflexivity|].
  apply (C8_derived_lockfile quiet "solo" "/usr/bin/sleep" ["100"%string]
                             "/var/lock" eq_refl eq_refl).
  - discriminate.
  - reflexivity.
Defined.

(** ** A path that does not fit *)

(** C5 fails on the code: for a command name of 4076 characters the path
    /var/lock/solo-lock-name has 4096 characters and does not fit;
    [main] prints its message and goes on with the first 4095 characters:
    that path is given to [creat], and the run continues as for any other
    lock file. *)
Theorem C5_truncated_path_used :
  let full := lock_path "/var/lock" long_name in
  let cut := substring 0 4095 full in
  Z.of_nat (String.length full) >= PATH_MAX /\
  cut <> full /\
  (let res := run_main quiet ["solo"%string; long_name] in
   out res = Exited 0 /\
   map ev_call (trace res) =
     [stat "/var/lock"; fprintf_stderr too_large_text;
      sigaction SIGHUP; sigaction SIGINT; sigaction SIGTERM;
      creat (Some cut) S_IWUSR; lockf 3 F_TLOCK 0; fork; waitpid 4242 0;
      unlink (Some cut); close 3]) /\
  (let res := run_main long_names_refused ["solo"%string; long_name] in
   out res = Exited ENAMETOOLONG /\
   map ev_call (trace res) =
     [stat "/var/lock"; fprintf_stderr too_large_text;
      sigaction SIGHUP; sigaction SIGINT; sigaction SIGTERM;
      creat (Some cut) S_IWUSR; perror "lock file creation failed";
      unlink (Some cut)]).
Proof.
  cbv zeta. split; [now vm_compute|]. split.
  - intros H. apply (f_equal String.length) in H. vm_compute in H.
    discriminate H.
  - split; split; now vm_compute.
Qed.

(** ** The flag without a command *)

(** C10: with -l or --lockfile and a lock file and nothing else, [main]
    does not print the usage: the run makes no other calls before
    [creat] than those of the handlers, and on the child's side of the
    fork it has created and locked the lock file and calls [execvp] with
    [argv[3]], which is [NULL], and the empty vector that starts there. *)
Theorem C10_flag_without_command (E : env) (a0 flag lfile : string) :
  flag = "-l"%string \/ flag = "--lockfile"%string ->
  let res := run_main E [a0; flag; lfile] in
  (forall e, In e (trace res) -> ev_call e <> printf usage_text) /\
  (forall r, In (Ev fork r) (trace res) -> ret r = 0 ->
   exists pre fd x,
     Forall handler_call pre /\
     In (Ev (execvp None []) x) (trace res) /\
     map ev_call (trace res) =
       map ev_call pre
       ++ [creat (Some lfile) S_IWUSR; lockf fd F_TLOCK 0; fork; close fd;
           execvp None []]
       ++ (if ret x =? -1 then [perror "failed to exec program"] else [])).
Proof.
  intros Hflag res. subst res. rewrite main_flag by exact Hflag.
  destruct (main_tail_reaches E [a0; flag; lfile] 3
              (set_lockfile (Some lfile) initial))
    as (pre & Hs & Hh & [(Ht & _ & _) | (s' & Hl & _ & Hr)]).
  - rewrite Ht. split.
    + intros e Hin Hc. rewrite Forall_forall in Hh. specialize (Hh e Hin).
      unfold handler_call in Hh. now rewrite Hc in Hh.
    + intros r Hin. exfalso. revert Hin. now apply setup_only_not_in.
  - rewrite Hr. unfold prefixed. cbn [trace].
    assert (Hl2 : lockfile s' = Some lfile) by exact Hl.
    split.
    + intros e Hin Hc. apply in_app_or in Hin. destruct Hin as [Hin | Hin].
      * rewrite Forall_forall in Hh. specialize (Hh e Hin).
        unfold handler_call in Hh. now rewrite Hc in Hh.
      * destruct (lock_and_run_paths E [a0; flag; lfile] 3 s' lfile Hl2)
          as (_ & Hn & _).
        rewrite Forall_forall in Hn. destruct (Hn e Hin) as (_ & Hu).
        unfold not_usage in Hu. now rewrite Hc in Hu.
    + intros r Hin Hz. apply in_after_setup in Hin; [|exact Hs|reflexivity].
      destruct (lock_and_run_child E [a0; flag; lfile] 3 s' lfile Hl2 r Hin Hz)
        as (fd & x & Hx & Hm & _).
      exists pre, fd, x. split; [exact Hh|]. split.
      * apply in_or_app. right. exact Hx.
      * rewrite map_app. f_equal. exact Hm.
Qed.

Lemma C10_flag_without_command_witness :
  ("-l"%string = "-l"%string \/ "-l"%string = "--lockfile"%string) /\
  In (Ev fork (success 0))
     (trace (run_main child_side ["solo"; "-l"; "/tmp/L"]%string)) /\
  ret (success 0) = 0 /\
  exists x,
    In (Ev (execvp None []) x)
       (trace (run_main child_side ["solo"; "-l"; "/tmp/L"]%string)).
Proof.
  split; [now left|]. split; [simpl; auto 10|]. split; [reflexivity|].
  destruct (C10_flag_without_command child_side "solo" "-l" "/tmp/L"
              (or_introl eq_refl)) as (_ & H).
  destruct (H (success 0)) as (_ & _ & x & _ & Hx & _).
  - simpl; auto 10.
  - reflexivity.
  - exists x. exact Hx.
Defined.

(** ** Steps and runs agree *)

Lemma exec_app (E : env) (a b : list action) (c : config) :
  exec E (a ++ b) c = exec E b (exec E a c).
Proof. revert c. induction a as [|x a IH]; intros c; simpl; auto. Qed.

(** Left to itself, a process ends as [eval] says. *)
Lemma exec_ticks_eval (E : env) (p : prog Z) :
  forall s l,
  exists n,
    exec E (repeat Tick n) (mkConfig (Running p) s l) =
      mkConfig (Done (out (eval E p s))) (final (eval E p s))
               (rev (trace (eval E p s)) ++ l).
Proof.
  induction p as [a | x | c k IH | k IH | g k IH]; intros s l.
  - exists 1%nat. reflexivity.
  - exists 1%nat. reflexivity.
  - simpl eval. cbv zeta.
    destruct (replaces c (E (ncalls s) c)) eqn:R.
    + exists 1%nat. simpl. unfold step. simpl. unfold replaces in R.
      rewrite R. reflexivity.
    + destruct (IH (E (ncalls s) c) (after_call c (E (ncalls s) c) s)
                   (Ev c (E (ncalls s) c) :: l)) as (n & Hn).
      exists (S n). simpl. unfold step. simpl. unfold replaces in R.
      rewrite R. rewrite Hn. simpl. now rewrite <- app_assoc.
  - destruct (IH s s l) as (n & Hn). exists (S n). exact Hn.
  - destruct (IH (g s) l) as (n & Hn). exists (S n). exact Hn.
Qed.

(** ** Signals *)

Lemma installed_in (sig : Z) (s : pstate) :
  In sig (handlers s) -> installed sig s = true.
Proof.
  intros H. unfold installed. apply existsb_exists.
  exists sig. split; [exact H | apply Z.eqb_refl].
Qed.

(** C9: when the three calls of [sigaction] succeed,
    [install_signal_handlers] returns 0 with [signal_handler] installed for
    [SIGHUP], [SIGINT] and [SIGTERM]; a signal among them that is delivered
    to the process, whatever the process is doing, makes it run the calls
    of [graceful_exit], which are those of every exit (an [unlink] of the
    lock file, then a [close] of the descriptor), and exit with status 1. *)
Theorem C9_signal_handlers (E : env) (s : pstate) :
  (forall n sig, ret (E n (sigaction sig)) <> -1) ->
  let r := eval E install_signal_handlers s in
  out r = Returned 0 /\
  map ev_call (trace r) = [sigaction SIGHUP; sigaction SIGINT; sigaction SIGTERM] /\
  handlers (final r) = SIGTERM :: SIGINT :: SIGHUP :: handlers s /\
  forall sig p s' l,
    In sig [SIGHUP; SIGINT; SIGTERM] ->
    handlers s' = handlers (final r) ->
    (exists n,
       let c := exec E (Signal sig :: repeat Tick n) (mkConfig (Running p) s' l) in
       st c = Done (Exited 1) /\
       map ev_call (history c) = map ev_call (rev l) ++ release_calls s') /\
    (forall status,
       map ev_call (trace (eval E (@graceful_exit Z status) s')) =
         release_calls s') /\
    (forall lf,
       lockfile s' = Some lf -> lockfile_fd s' <> -1 ->
       release_calls s' = [unlink (Some lf); close (lockfile_fd s')]).
Proof.
  intros Hok r.
  assert (Hr : out r = Returned 0 /\
               map ev_call (trace r) =
                 [sigaction SIGHUP; sigaction SIGINT; sigaction SIGTERM] /\
               handlers (final r) = SIGTERM :: SIGINT :: SIGHUP :: handlers s).
  { subst r. unfold install_signal_handlers, signals. run_sym.
    all: try (exfalso;
              match goal with
              | H : (ret (_ ?n (sigaction ?g)) =? -1) = true |- _ =>
                  apply Z.eqb_eq in H; exact (Hok n g H)
              end).
    auto. }
  destruct Hr as (Ho & Ht & Hh).
  split; [exact Ho|]. split; [exact Ht|]. split; [exact Hh|].
  intros sig p s' l Hsig Hs'.
  assert (Hcalls : forall A status,
             map ev_call (trace (eval E (@graceful_exit A status) s')) =
               release_calls s').
  { intros A status.
    now destruct (graceful_exit_eval (A := A) E status s') as (_ & Hc & _). }
  split; [|split; [apply Hcalls|]].
  - assert (Hin : installed sig s' = true).
    { apply installed_in. rewrite Hs', Hh. simpl in Hsig. simpl.
      intuition. }
    destruct (exec_ticks_eval E (signal_handler sig ;; p) s' l) as (n & Hn).
    assert (Hrun : exec E (Signal sig :: repeat Tick n)
                        (mkConfig (Running p) s' l) =
                   mkConfig (Done (Exited 1))
                            (final (eval E (signal_handler sig) s'))
                            (rev (trace (eval E (signal_handler sig) s')) ++ l)).
    { cbn [exec]. unfold step. cbn [st ps log]. rewrite Hin, Hn.
      rewrite eval_bind. unfold then_run, signal_handler.
      destruct (graceful_exit_eval (A := unit) E 1 s') as (Hx & _).
      rewrite Hx. reflexivity. }
    exists n. cbv zeta. rewrite Hrun. unfold history. cbn [st log].
    split; [reflexivity|].
    rewrite rev_app_distr, rev_involutive, map_app. f_equal.
    unfold signal_handler. apply Hcalls.
  - intros lf Hlf Hfd. unfold release_calls. rewrite Hlf.
    apply Z.eqb_neq in Hfd. now rewrite Hfd.
Qed.

Lemma C9_signal_handlers_witness :
  (forall n sig, ret (quiet n (sigaction sig)) <> -1) /\
  handlers (final (eval quiet install_signal_handlers initial)) =
    [SIGTERM; SIGINT; SIGHUP].
Proof.
  split; [discriminate|].
  apply (C9_signal_handlers quiet initial). discriminate.
Defined.

(** ** The order of release *)

Ltac solve_calm :=
  unfold calm in *; simpl;
  first [ left; reflexivity
        | right; discriminate
        | tauto
        | intuition congruence ].

Ltac crush_safe :=
  repeat (simpl;
          match goal with
          | |- True => exact I
          | |- calm _ => solve_calm
          | |- _ /\ _ => split
          | H : close _ = close _ |- _ => injection H as <-
          | H : unlink _ = unlink _ |- _ => injection H as <-
          | H : _ = close _ |- _ => discriminate H
          | H : _ = unlink _ |- _ => discriminate H
          | |- forall _, _ => intro
          | |- _ = _ => reflexivity
          | |- _ = true \/ _ = true =>
              first [ left; reflexivity | right; reflexivity
                    | left; assumption | right; assumption ]
          | |- Some _ <> None => discriminate
          | |- context [if _ then _ else _] => first [use_known | split_if]
          end).

Lemma safe_calm (w : seen) (s : pstate) (p : prog Z) : safe w s p -> calm s.
Proof. unfold safe. destruct p; simpl; tauto. Qed.

Lemma safe_then_bind {A B : Type} (p : prog A) (f : A -> prog B)
    (Q : B -> seen -> pstate -> Prop) :
  forall w s,
  safe_then w s p (fun a w' s' => safe_then w' s' (f a) Q) ->
  safe_then w s (bind p f) Q.
Proof.
  induction p as [a | x | c k IH | k IH | g k IH]; intros w s H; simpl in *.
  - tauto.
  - tauto.
  - destruct H as (C & Hc & Hu & Hk).
    split; [exact C|]. split; [exact Hc|]. split; [exact Hu|]. auto.
  - destruct H as (C & Hk). split; auto.
  - destruct H as (C & Hf & Hk). split; [exact C|]. split; auto.
Qed.

Lemma safe_then_impl {A : Type} (p : prog A)
    (Q Q' : A -> seen -> pstate -> Prop) :
  (forall a w s, Q a w s -> Q' a w s) ->
  forall w s, safe_then w s p Q -> safe_then w s p Q'.
Proof.
  intros HQ.
  induction p as [a | x | c k IH | k IH | g k IH]; intros w s H; simpl in *.
  - destruct H; auto.
  - tauto.
  - destruct H as (C & Hc & Hu & Hk).
    split; [exact C|]. split; [exact Hc|]. split; [exact Hu|]. auto.
  - destruct H as (C & Hk). split; auto.
  - destruct H as (C & Hf & Hk). split; [exact C|]. split; auto.
Qed.

(** The handler keeps the order wherever it interrupts the program. *)
Lemma safe_handler (w : seen) (s : pstate) (sig : Z) (p : prog Z) :
  calm s -> safe w s (signal_handler sig ;; p).
Proof.
  intros C. destruct s as [l f e h n].
  unfold safe, signal_handler, graceful_exit, calm in *.
  simpl in *. destruct l as [q|].
  - crush_safe; auto.
  - destruct C as [-> | C]; [|congruence]. crush_safe; auto.
Qed.

Lemma safe_install (s : pstate) :
  calm s -> safe_then untouched s install_signal_handlers (kept s).
Proof.
  intros C. destruct s as [l f e h n].
  unfold install_signal_handlers, signals, kept, calm in *. simpl in *.
  crush_safe; auto.
Qed.

Lemma safe_get_lockdir (s : pstate) :
  calm s -> safe_then untouched s get_lockdir (kept s).
Proof.
  intros C. destruct s as [l f e h n].
  unfold get_lockdir, paths, kept, calm in *. simpl in *.
  crush_safe; auto.
Qed.

Lemma safe_lock_and_run (argv : list string) (cs : nat) (s : pstate)
    (lf : string) :
  lockfile s = Some lf -> safe untouched s (lock_and_run argv cs).
Proof.
  intros Hl. with_lockfile s Hl.
  unfold safe, lock_and_run, graceful_exit.
  crush_safe.
Qed.

Lemma safe_main_tail (argv : list string) (cs : nat) (s : pstate) (lf : string) :
  lockfile s = Some lf -> safe untouched s (main_tail argv cs).
Proof.
  intros Hl. unfold safe, main_tail. apply safe_then_bind.
  eapply safe_then_impl; [|apply safe_install].
  - intros v w' s' (-> & Hl' & _).
    assert (C : calm s') by (right; congruence).
    destruct (negb (v =? 0)).
    + simpl. auto.
    + apply safe_lock_and_run with (lf := lf). congruence.
  - right; congruence.
Qed.

Lemma safe_main (argv : list string) : safe untouched initial (main argv).
Proof.
  assert (C0 : calm initial) by (left; reflexivity).
  unfold safe, main.
  destruct argv as [|a0 [|a1 rest]]; simpl List.length; cbv iota.
  - crush_safe.
  - crush_safe.
  - change (S (S (List.length rest)) <? 2)%nat with false. cbv iota.
    change (cstr_eqb (arg (a0 :: a1 :: rest) 1) "-l"
            || cstr_eqb (arg (a0 :: a1 :: rest) 1) "--lockfile")
      with (is_flag a1).
    destruct (is_flag a1).
    + destruct rest as [|a2 rest]; simpl List.length.
      * crush_safe.
      * change (S (S (S (List.length rest))) <? 3)%nat with false. cbv iota.
        split; [exact C0|]. split; [reflexivity|].
        exact (safe_main_tail (a0 :: a1 :: a2 :: rest) 3
                 (set_lockfile (Some a2) initial) a2 eq_refl).
    + apply safe_then_bind.
      eapply safe_then_impl; [|apply safe_get_lockdir; exact C0].
      intros d w' s' (-> & Hl & Hf).
      assert (C : calm s') by (left; exact Hf).
      destruct d as [D|]; [|solve [crush_safe]].
      simpl arg. simpl text.
      destruct (String.eqb (basename a1) EmptyString); [solve [crush_safe]|].
      unfold snprintf_lock.
      assert (T : forall s1, lockfile_fd s1 = -1 ->
                  safe_then untouched s1
                    (put (set_lockfile
                            (Some (substring 0 (Z.to_nat (PATH_MAX - 1))
                                     (lock_path D (basename a1))))) ;;
                     main_tail (a0 :: a1 :: rest) 1) (fun _ _ _ => True)).
      { intros s1 H1.
        split; [left; exact H1|]. split; [reflexivity|].
        exact (safe_main_tail (a0 :: a1 :: rest) 1
                 (set_lockfile _ s1) _ eq_refl). }
      destruct (Z.of_nat (String.length (lock_path D (basename a1)))
                >=? PATH_MAX).
      * split; [exact C|].
        split; [discriminate|]. split; [discriminate|].
        intros r. apply (T (after_call _ r s')). exact Hf.
      * apply (T s'). exact Hf.
Qed.

Lemma untouched_log (l : list event) :
  touched l = false ->
  (forall q r, ~ In (Ev (unlink q) r) l) /\
  (forall fd r, ~ In (Ev (close fd) r) l).
Proof.
  unfold touched. intros H.
  split; intros x r Hin;
    (assert (T : existsb (fun e => is_unlink (ev_call e) || is_close (ev_call e)) l
                 = true)
      by (apply existsb_exists; eexists; split; [exact Hin | reflexivity]));
    congruence.
Qed.

Lemma log_ok_assign (s s' : pstate) (l : list event) :
  touched l = false -> log_ok s l -> log_ok s' l.
Proof.
  intros T (_ & _ & Ho). destruct (untouched_log l T) as (Hu & Hc).
  split; [|split; [|exact Ho]].
  - intros q r Hin. now apply Hu in Hin.
  - intros fd r Hin. now apply Hc in Hin.
Qed.

Lemma invariant_start (argv : list string) : invariant (start argv).
Proof.
  split.
  - split; [|split]; simpl; try tauto.
  - apply safe_main.
Qed.

Lemma invariant_step (E : env) (a : action) (c : config) :
  invariant c -> invariant (step E a c).
Proof.
  destruct c as [status s l]. unfold invariant, step. cbn [st ps log].
  intros (Hlog & Hsafe).
  destruct status as [p | o | g]; [|split; assumption..].
  destruct a as [|sig].
  - (* the process runs *)
    destruct p as [x | x | c k | k | f k]; unfold safe in Hsafe;
      cbn [tick st ps log]; simpl in Hsafe.
    + split; [exact Hlog | exact I].
    + split; [exact Hlog | exact I].
    + destruct Hsafe as (C & Hc & Hu & Hk).
      set (r := E (ncalls s) c) in *.
      assert (Hlog' : log_ok (after_call c r s) (Ev c r :: l)).
      { destruct Hlog as (Lu & Lc & Lo). split; [|split].
        - intros q r' [Hin | Hin].
          + injection Hin as -> ->. apply (Hu q eq_refl).
          + apply (Lu q r' Hin).
        - intros fd r' [Hin | Hin].
          + injection Hin as -> ->. apply (Hc fd eq_refl).
          + apply (Lc fd r' Hin).
        - split; [|exact Lo]. simpl. intros Hcl.
          destruct c; try discriminate Hcl.
          destruct (Hc fd eq_refl) as (H & _). exact H. }
      split; [exact Hlog'|].
      destruct (replaces c r); [exact I|].
      specialize (Hk r). unfold safe.
      replace (seen_of (Ev c r :: l)) with (seen_after c r (seen_of l));
        [exact Hk|].
      unfold seen_of, seen_after, unlinked, touched. simpl. reflexivity.
    + split; [exact Hlog|]. destruct Hsafe as (_ & Hk). exact Hk.
    + destruct Hsafe as (_ & Ht & Hk).
      split; [|exact Hk]. now apply log_ok_assign with (s := s).
  - (* a signal arrives *)
    destruct (installed sig s); cbn [st ps log]; [|split; [assumption|exact I]].
    split; [exact Hlog|]. apply safe_handler. now apply safe_calm in Hsafe.
Qed.

Lemma invariant_exec (E : env) (sched : list action) :
  forall c, invariant c -> invariant (exec E sched c).
Proof.
  induction sched as [|a sched IH]; intros c H; simpl; [exact H|].
  apply IH. now apply invariant_step.
Qed.

Lemma ordered_split (post pre : list event) (e : event) :
  ordered (post ++ e :: pre) ->
  is_close (ev_call e) = true ->
  unlinked pre = true \/ just_forked pre = true.
Proof.
  induction post as [|x post IH]; simpl.
  - intros (H & _). exact H.
  - intros (_ & H). exact (IH H).
Qed.

(** C2: in every run of the program, whatever the system replies and
    whenever signals arrive, each [close] is a close of [lockfile_fd], and
    it comes after an [unlink] of [lockfile]; the one exception is the
    [close] that the child makes as its first call after [fork], before
    [execvp], which is not a release. *)
Theorem C2_unlink_before_close (E : env) (argv : list string)
    (sched : list action) :
  let c := exec E sched (start argv) in
  forall pre fd r post,
    history c = pre ++ Ev (close fd) r :: post ->
    fd = lockfile_fd (ps c) /\
    ((exists lf r', lockfile (ps c) = Some lf /\
                    In (Ev (unlink (Some lf)) r') pre) \/
     (exists pre' r0, pre = pre' ++ [Ev fork r0] /\ ret r0 = 0)).
Proof.
  intros c pre fd r post Hh.
  destruct (invariant_exec E sched (start argv) (invariant_start argv))
    as ((Lu & Lc & Lo) & _).
  fold c in Lu, Lc, Lo. unfold history in Hh.
  assert (Hl : log c = rev post ++ Ev (close fd) r :: rev pre).
  { rewrite <- (rev_involutive (log c)), Hh, rev_app_distr. simpl.
    now rewrite <- app_assoc. }
  split.
  - apply (Lc fd r). rewrite Hl. apply in_or_app. right. now left.
  - rewrite Hl in Lo. apply ordered_split in Lo; [|reflexivity].
    destruct Lo as [Hu | Hj].
    + left. unfold unlinked in Hu. apply existsb_exists in Hu.
      destruct Hu as ([c0 r0] & Hin & Hc0). simpl in Hc0.
      destruct c0; try discriminate Hc0.
      destruct (Lu path r0) as (Hp & Hn).
      { rewrite Hl. apply in_or_app. right. right. exact Hin. }
      destruct path as [lf|]; [|congruence].
      exists lf, r0. split; [now symmetry|]. now apply in_rev.
    + right. destruct (rev pre) as [|[c0 r0] t] eqn:Hr; [discriminate Hj|].
      simpl in Hj. destruct c0; try discriminate Hj.
      exists (rev t), r0. split; [|now apply Z.eqb_eq].
      rewrite <- (rev_involutive pre), Hr. reflexivity.
Qed.

Lemma C2_unlink_before_close_witness :
  let c := exec quiet interrupted (start ["solo"; "sleep"; "100"]%string) in
  let pre :=
    [Ev (stat "/var/lock") (quiet 0%nat (stat "/var/lock"));
     Ev (sigaction SIGHUP) (success 0);
     Ev (sigaction SIGINT) (success 0);
     Ev (sigaction SIGTERM) (success 0);
     Ev (creat (Some "/var/lock/solo-lock-sleep"%string) S_IWUSR) (success 3);
     Ev (lockf 3 F_TLOCK 0) (success 0);
     Ev fork (success 4242);
     Ev (unlink (Some "/var/lock/solo-lock-sleep"%string)) (success 0)] in
  history c = pre ++ Ev (close 3) (success 0) :: [] /\
  st c = Done (Exited 1) /\
  3 = lockfile_fd (ps c).
Proof.
  cbv zeta. split; [reflexivity|]. split; [reflexivity|].
  apply (C2_unlink_before_close quiet ["solo"; "sleep"; "100"]%string
           interrupted
           [Ev (stat "/var/lock") (quiet 0%nat (stat "/var/lock"));
            Ev (sigaction SIGHUP) (success 0);
            Ev (sigaction SIGINT) (success 0);
            Ev (sigaction SIGTERM) (success 0);
            Ev (creat (Some "/var/lock/solo-lock-sleep"%string) S_IWUSR)
               (success 3);
            Ev (lockf 3 F_TLOCK 0) (success 0);
            Ev fork (success 4242);
            Ev (unlink (Some "/var/lock/solo-lock-sleep"%string)) (success 0)]
           3 (success 0) []).
  reflexivity.
Defined.

(** ** Concurrent invocations *)

(** C1 fails on the code: the second invocation finds the lock held,
    and on its way out [graceful_exit] unlinks the lock file of the
    first; the third then creates a new file under the same name and
    locks it.  Two invocations have acquired the lock, each on its own
    file, and both commands run. *)
Theorem C1_two_holders :
  let S := sys_exec one_then_two_then_three three in
  let installs := [sigaction SIGHUP; sigaction SIGINT; sigaction SIGTERM] in
  let path := Some "/tmp/L"%string in
  calls_of 1 S = installs ++ [creat path S_IWUSR; lockf 3 F_TLOCK 0; fork] /\
  calls_of 2 S =
    installs ++ [creat path S_IWUSR; lockf 3 F_TLOCK 0;
                 fprintf_stderr already_running_text; unlink path; close 3] /\
  calls_of 3 S = installs ++ [creat path S_IWUSR; lockf 3 F_TLOCK 0; fork] /\
  status_of 2 S = Some (Done (Exited EAGAIN)) /\
  acquirers S = [1; 3] /\
  commands_running S = [1; 3] /\
  locks (kern S) = [(2, 3); (1, 1)].
Proof. cbv zeta. repeat split; now vm_compute. Qed.

(** * Further properties of the code *)

(** ** Where [main] returns early and where it goes on *)

Lemma main_tail_reaches_at (E : env) (argv : list string) (cs : nat)
    (s : pstate) :
  let res := eval E (main_tail argv cs) s in
  exists pre,
    setup_only pre /\ Forall handler_call pre /\
    ((trace res = pre /\ (exists v, out res = Returned v /\ v <> 0) /\
      lockfile (final res) = lockfile s /\
      lockfile_fd (final res) = lockfile_fd s)
     \/
     (exists s', lockfile s' = lockfile s /\ lockfile_fd s' = lockfile_fd s /\
                 res = prefixed pre (eval E (lock_and_run argv cs) s'))).
Proof.
  unfold main_tail. rewrite eval_bind.
  destruct (install_eval E s) as ((v & Hv) & Hs & Hn & Hl & Hf).
  exists (trace (eval E install_signal_handlers s)).
  split; [exact Hs|]. split; [exact Hn|].
  unfold then_run. rewrite Hv.
  destruct (v =? 0) eqn:V; simpl.
  - right. eexists. split; [exact Hl|]. split; [exact Hf|]. reflexivity.
  - left. rewrite app_nil_r. apply Z.eqb_neq in V. eauto 10.
Qed.

Lemma reaches_at_tail (E : env) (argv : list string) (s : pstate)
    (lf : string) (pre0 : list event) :
  setup_only pre0 -> lockfile s = Some lf -> lockfile_fd s = -1 ->
  reaches_at E argv
    (prefixed pre0 (eval E (main_tail argv (cmd_start_of argv)) s)).
Proof.
  intros H0 Hl Hfd.
  destruct (main_tail_reaches_at E argv (cmd_start_of argv) s)
    as (pre & Hs & _ & [(Ht & Hv & _ & Hf) | (s' & Hl' & Hf' & Hr)]).
  - left. unfold prefixed. cbn [trace out final]. rewrite Ht.
    split; [now apply setup_only_app|]. split; [congruence | exact Hv].
  - right. exists (pre0 ++ pre), s', lf.
    split; [now apply setup_only_app|]. split; [congruence|].
    split; [congruence|]. rewrite Hr. apply prefixed_app.
Qed.

Lemma reaches_at_early (E : env) (argv : list string) (pre0 : list event)
    (r : result Z) :
  setup_only pre0 -> setup_only (trace r) -> lockfile_fd (final r) = -1 ->
  out r = Returned 1 ->
  reaches_at E argv (prefixed pre0 r).
Proof.
  intros H0 Ht Hf Hv. left. unfold prefixed. cbn [trace out final].
  split; [now apply setup_only_app|]. split; [exact Hf|].
  exists 1. split; [exact Hv | discriminate].
Qed.

Lemma main_reaches_at (E : env) (argv : list string) :
  reaches_at E argv (run_main E argv).
Proof.
  destruct argv as [|a0 [|a1 rest]].
  - left. simpl. split; [repeat constructor|]. split; [reflexivity|].
    exists 1. split; [reflexivity | discriminate].
  - left. simpl. split; [repeat constructor|]. split; [reflexivity|].
    exists 1. split; [reflexivity | discriminate].
  - destruct (is_flag a1) eqn:F.
    + destruct rest as [|lfile rest].
      * left. unfold run_main, main. simpl List.length. cbv iota.
        change (cstr_eqb (arg [a0; a1] 1) "-l"
                || cstr_eqb (arg [a0; a1] 1) "--lockfile") with (is_flag a1).
        rewrite F. simpl. split; [repeat constructor|].
        split; [reflexivity|]. exists 1. split; [reflexivity | discriminate].
      * rewrite main_flag by now apply is_flag_true.
        rewrite <- prefixed_nil.
        replace 3%nat with (cmd_start_of (a0 :: a1 :: lfile :: rest))
          by (simpl; now rewrite F).
        apply reaches_at_tail with (lf := lfile);
          [constructor | reflexivity | reflexivity].
    + rewrite main_auto by exact F.
      destruct (get_lockdir_eval E initial) as ((d & Hd) & Hs & Hl & Hf).
      unfold then_run. rewrite Hd.
      set (s1 := final (eval E get_lockdir initial)) in *.
      set (t1 := trace (eval E get_lockdir initial)) in *.
      change (reaches_at E (a0 :: a1 :: rest)
                (prefixed t1 (derive E (a0 :: a1 :: rest) a1 d s1))).
      assert (C : cmd_start_of (a0 :: a1 :: rest) = 1%nat)
        by (simpl; now rewrite F).
      unfold derive. destruct d as [D|].
      * destruct (String.eqb (basename a1) EmptyString).
        { apply reaches_at_early;
            [exact Hs | simpl; repeat constructor | exact Hf | reflexivity]. }
        destruct (_ >=? PATH_MAX).
        { rewrite eval_sys_put by reflexivity.
          rewrite prefixed_app. rewrite <- C.
          eapply reaches_at_tail;
            [apply setup_only_app; [exact Hs | repeat constructor]
            | reflexivity | exact Hf]. }
        rewrite <- C.
        eapply reaches_at_tail; [exact Hs | reflexivity | exact Hf].
      * apply reaches_at_early;
          [exact Hs | simpl; repeat constructor | exact Hf | reflexivity].
Qed.

(** ** More on [lock_and_run] *)

Section LockAndRunMore.

Variable E : env.
Variable argv : list string.
Variable cmd_start : nat.
Variable s : pstate.
Variable lf : string.
Hypothesis recorded : lockfile s = Some lf.

Let res : result Z := eval E (lock_and_run argv cmd_start) s.

Lemma lock_and_run_creat_failure (r : reply) :
  In (Ev (creat (Some lf) S_IWUSR) r) (trace res) -> ret r = -1 ->
  exists m,
    In (Ev (perror "lock file creation failed") m) (trace res) /\
    out res = Exited (if err m =? 0 then err r else err m) /\
    lockfile_fd (final res) = -1 /\
    map ev_call (trace res) =
      [creat (Some lf) S_IWUSR; perror "lock file creation failed";
       unlink (Some lf)].
Proof.
  subst res. revert r. with_lockfile s recorded.
  unfold lock_and_run, graceful_exit. run_sym.
  all: intros r H Hr; pick H.
  all: injection H as <-.
  all: try absurd_tests.
  all: eexists; split; [simpl; eauto 10|]; by_tests.
  all: split; [reflexivity|]; split; [|reflexivity].
  all: match goal with
       | H : (ret _ =? -1) = true |- _ => now apply Z.eqb_eq in H
       end.
Qed.

Lemma lock_and_run_fork_failure (r : reply) :
  In (Ev fork r) (trace res) -> ret r = -1 ->
  exists m fd,
    In (Ev (perror "fork") m) (trace res) /\
    out res = Exited (if err m =? 0 then err r else err m) /\
    lockfile_fd (final res) = fd /\
    map ev_call (trace res) =
      [creat (Some lf) S_IWUSR; lockf fd F_TLOCK 0; fork; perror "fork";
       unlink (Some lf); close fd].
Proof.
  subst res. revert r. with_lockfile s recorded.
  unfold lock_and_run, graceful_exit. run_sym.
  all: intros r H Hr; pick H.
  all: injection H as <-.
  all: try absurd_tests.
  all: try (rewrite Hr in *; discriminate).
  all: do 2 eexists; split; [simpl; eauto 10|]; by_tests.
Qed.

Lemma lock_and_run_wait_failure (pid : Z) (r : reply) :
  In (Ev (waitpid pid 0) r) (trace res) -> ret r = -1 ->
  exists m fd,
    In (Ev (perror "waitpid") m) (trace res) /\
    out res = Exited (if err m =? 0 then err r else err m) /\
    lockfile_fd (final res) = fd /\
    map ev_call (trace res) =
      [creat (Some lf) S_IWUSR; lockf fd F_TLOCK 0; fork; waitpid pid 0;
       perror "waitpid"; unlink (Some lf); close fd].
Proof.
  subst res. revert pid r. with_lockfile s recorded.
  unfold lock_and_run, graceful_exit. run_sym.
  all: intros pid r H Hr; pick H.
  all: injection H as <- <-.
  all: try absurd_tests.
  all: do 2 eexists; split; [simpl; eauto 10|]; by_tests.
Qed.

(** The command is started, and waited for, with the lock held. *)
Lemma lock_and_run_order (e : event) :
  In e (trace res) -> is_launch (ev_call e) = true ->
  exists rc rl rf t,
    trace res =
      Ev (creat (Some lf) S_IWUSR) rc
      :: Ev (lockf (ret rc) F_TLOCK 0) rl
      :: Ev fork rf :: t /\
    ret rc <> -1 /\ ret rl <> -1 /\
    (e = Ev fork rf \/ In e t).
Proof.
  subst res. revert e. with_lockfile s recorded.
  unfold lock_and_run, graceful_exit. run_sym.
  all: intros e H He; pick H; subst e; try discriminate He.
  all: repeat match goal with
              | H : (_ =? -1) = false |- _ => apply Z.eqb_neq in H
              end.
  all: do 4 eexists; split; [reflexivity|];
    split; [assumption|]; split; [assumption|]; simpl; auto 10.
Qed.

Lemma lock_and_run_counts :
  (count_calls is_creat (trace res) <= 1)%nat /\
  (count_calls is_lockf (trace res) <= 1)%nat /\
  (count_calls is_fork (trace res) <= 1)%nat /\
  (count_calls is_exec (trace res) <= 1)%nat /\
  (count_calls is_waitpid (trace res) <= 1)%nat /\
  (count_calls is_unlink (trace res) <= 1)%nat /\
  (forall fd cmd len r, In (Ev (lockf fd cmd len) r) (trace res) ->
     cmd = F_TLOCK /\ len = 0 /\ fd = lockfile_fd (final res)).
Proof.
  subst res. with_lockfile s recorded.
  unfold lock_and_run, graceful_exit, count_calls. run_sym.
  all: split; [lia|]; split; [lia|]; split; [lia|]; split; [lia|];
    split; [lia|]; split; [lia|].
  all: intros fd cmd len r H; pick H; injection H as <- <- <-; auto.
Qed.

Lemma lock_and_run_exit_zero :
  sane E -> exit_code res = Some 0 ->
  exists pid r, In (Ev (waitpid pid 0) r) (trace res) /\ ret r <> -1.
Proof.
  intros Hsane. subst res. with_lockfile s recorded.
  unfold lock_and_run, graceful_exit, exit_code. run_sym.
  all: intros H; try discriminate H; try (injection H as H).
  all: repeat match goal with
              | H : (_ =? -1) = true |- _ => apply Z.eqb_eq in H
              | H : (_ =? -1) = false |- _ => apply Z.eqb_neq in H
              end.
  all: try (exfalso;
            match goal with
            | H1 : ret (E ?n ?c) = -1, H2 : err (E ?n ?c) = 0 |- _ =>
                exact (proj1 (Hsane n c) H1 H2)
            end).
  all: try (exfalso;
            match goal with
            | H1 : (?x =? 0) = false, H2 : ?x = 0 |- _ =>
                apply Z.eqb_neq in H1; exact (H1 H2)
            end).
  all: try (do 2 eexists; split; [simpl; eauto 10 | assumption]).
  exfalso.
  match goal with
  | H1 : (ret (E ?n fork) =? 0) = false,
    H2 : (ret (E ?n fork) >? 0) = false |- _ =>
      pose proof (proj2 (Hsane n fork) eq_refl);
      apply Z.eqb_neq in H1; rewrite Z.gtb_ltb in H2; apply Z.ltb_ge in H2;
      lia
  end.
Qed.

(** Release is what separates [exit] from [return]. *)
Lemma lock_and_run_release_iff_exit :
  ((exists code, out res = Exited code) <->
   (exists r, In (Ev (unlink (Some lf)) r) (trace res))) /\
  (forall p r, In (Ev (unlink p) r) (trace res) -> p = Some lf).
Proof.
  subst res. with_lockfile s recorded.
  unfold lock_and_run, graceful_exit. run_sym.
  all: split; [split|].
  all: try solve [intros _; eexists; simpl; eauto 10].
  all: try solve [intros (code & H); discriminate H].
  all: try solve [intros (r & H); pick H].
  all: try solve [intros _; eexists; reflexivity].
  all: try solve [intros p r H; pick H; now injection H as <-].
Qed.

Lemma lock_and_run_no_too_large :
  Forall (fun e => ev_call e <> fprintf_stderr too_large_text) (trace res).
Proof.
  subst res. with_lockfile s recorded.
  unfold lock_and_run, graceful_exit. run_sym.
  all: repeat constructor; simpl; try discriminate.
  all: intros H; injection H as H; vm_compute in H; discriminate H.
Qed.

End LockAndRunMore.

(** ** The first part of [main] *)

Lemma get_lockdir_keeps (E : env) (s : pstate) :
  let r := eval E get_lockdir s in
  Forall before_handlers (trace r) /\ Forall not_usage (trace r) /\
  handlers (final r) = handlers s.
Proof.
  unfold get_lockdir, paths. run_sym.
  all: split; [repeat constructor | split; [repeat constructor | reflexivity]].
Qed.

Lemma main_to_tail (E : env) (argv : list string) :
  reaches_tail_at E argv (run_main E argv).
Proof.
  destruct argv as [|a0 [|a1 rest]].
  - left. simpl. repeat split; repeat constructor.
  - left. simpl. repeat split; repeat constructor.
  - destruct (is_flag a1) eqn:F.
    + destruct rest as [|lfile rest].
      * left. unfold run_main, main. simpl List.length. cbv iota.
        change (cstr_eqb (arg [a0; a1] 1) "-l"
                || cstr_eqb (arg [a0; a1] 1) "--lockfile") with (is_flag a1).
        rewrite F. simpl. repeat split; repeat constructor.
      * rewrite main_flag by now apply is_flag_true.
        right. exists [], (set_lockfile (Some lfile) initial), lfile.
        split; [constructor|]. split; [constructor|].
        split; [reflexivity|]. split; [reflexivity|]. split; [reflexivity|].
        rewrite prefixed_nil. simpl. now rewrite F.
    + rewrite main_auto by exact F.
      destruct (get_lockdir_eval E initial) as ((d & Hd) & _ & Hl & Hf).
      destruct (get_lockdir_keeps E initial) as (Hb & Hu & Hh).
      unfold then_run. rewrite Hd.
      set (s1 := final (eval E get_lockdir initial)) in *.
      set (t1 := trace (eval E get_lockdir initial)) in *.
      change (reaches_tail_at E (a0 :: a1 :: rest)
                (prefixed t1 (derive E (a0 :: a1 :: rest) a1 d s1))).
      clearbody s1 t1. clear Hd.
      assert (C : cmd_start_of (a0 :: a1 :: rest) = 1%nat)
        by (simpl; now rewrite F).
      unfold derive. destruct d as [D|].
      * destruct (String.eqb (basename a1) EmptyString).
        { left. unfold prefixed. simpl.
          split; [apply Forall_app; split; [exact Hb | repeat constructor]|].
          split; [reflexivity|]. split; [exact Hf | exact Hh]. }
        destruct (_ >=? PATH_MAX).
        { rewrite eval_sys_put by reflexivity. rewrite prefixed_app.
          right. do 3 eexists.
          split; [|split; [|split; [|split; [|split]]]].
          6: now rewrite C.
          - apply Forall_app; split; [exact Hb | repeat constructor].
          - apply Forall_app; split; [exact Hu | repeat constructor].
          - reflexivity.
          - exact Hf.
          - exact Hh. }
        right. do 3 eexists.
        split; [|split; [|split; [|split; [|split]]]].
        6: now rewrite C.
        -- exact Hb.
        -- exact Hu.
        -- reflexivity.
        -- exact Hf.
        -- exact Hh.
      * left. unfold prefixed. simpl.
        split; [apply Forall_app; split; [exact Hb | repeat constructor]|].
        split; [reflexivity|]. split; [exact Hf | exact Hh].
Qed.

Lemma main_tail_no_usage (E : env) (argv : list string) (cs : nat)
    (s : pstate) (lf : string) :
  lockfile s = Some lf ->
  Forall not_usage (trace (eval E (main_tail argv cs) s)).
Proof.
  intros Hl.
  destruct (main_tail_reaches E argv cs s)
    as (pre & _ & Hh & [(Ht & _) | (s' & Hl' & _ & Hr)]).
  - rewrite Ht. eapply Forall_impl; [|exact Hh].
    intros e. unfold handler_call, not_usage. now destruct (ev_call e).
  - rewrite Hr. unfold prefixed. cbn [trace]. apply Forall_app. split.
    + eapply Forall_impl; [|exact Hh].
      intros e. unfold handler_call, not_usage. now destruct (ev_call e).
    + assert (Hl2 : lockfile s' = Some lf) by congruence.
      destruct (lock_and_run_paths E argv cs s' lf Hl2) as (_ & Hn & _).
      eapply Forall_impl; [|exact Hn]. now intros e [_ ?].
Qed.

(** X1: [main] prints the usage exactly when it has no argument, or the
    flag and nothing after it; it then makes no other call and returns
    1. *)
Theorem X1_usage_error (E : env) (argv : list string) :
  let res := run_main E argv in
  (usage_error argv = true ->
   out res = Returned 1 /\
   map ev_call (trace res) = [printf usage_text] /\
   final res = after_call (printf usage_text) (E 0%nat (printf usage_text))
                 initial) /\
  (usage_error argv = false ->
   forall text r, ~ In (Ev (printf text) r) (trace res)).
Proof.
  intros res. subst res. split.
  - intros U. destruct argv as [|a0 [|a1 [|a2 rest]]]; try discriminate U.
    + repeat split.
    + repeat split.
    + simpl in U. unfold run_main, main. simpl List.length. cbv iota.
      change (cstr_eqb (arg [a0; a1] 1) "-l"
              || cstr_eqb (arg [a0; a1] 1) "--lockfile") with (is_flag a1).
      rewrite U. repeat split.
  - intros U text r Hin.
    assert (N : Forall not_usage (trace (run_main E argv))).
    { destruct argv as [|a0 [|a1 rest]]; try discriminate U.
      destruct (is_flag a1) eqn:F.
      - destruct rest as [|lfile rest]; [simpl in U; congruence|].
        rewrite main_flag by now apply is_flag_true.
        now apply main_tail_no_usage with (lf := lfile).
      - rewrite main_auto by exact F.
        destruct (get_lockdir_eval E initial) as ((d & Hd) & _).
        destruct (get_lockdir_keeps E initial) as (_ & Hu & _).
        unfold then_run. rewrite Hd. cbn [trace].
        apply Forall_app. split; [exact Hu|].
        unfold derive. destruct d as [D|]; [|simpl; repeat constructor].
        destruct (String.eqb (basename a1) EmptyString);
          [simpl; repeat constructor|].
        destruct (_ >=? PATH_MAX).
        + rewrite eval_sys_put by reflexivity. unfold prefixed. cbn [trace].
          constructor; [exact I|].
          eapply main_tail_no_usage. reflexivity.
        + eapply main_tail_no_usage. reflexivity. }
    rewrite Forall_forall in N. exact (N _ Hin).
Qed.

Lemma X1_usage_error_witness :
  usage_error ["solo"; "--lockfile"]%string = true /\
  out (run_main quiet ["solo"; "--lockfile"]%string) = Returned 1.
Proof.
  split; [reflexivity|].
  apply (X1_usage_error quiet ["solo"; "--lockfile"]%string). reflexivity.
Defined.

(** X2: without the flag, when no lock directory is found ([stat] fails
    on /var/lock, or /var/lock is not a directory and [stat] fails on
    /tmp), [main] reports it and returns 1; it has installed no handler,
    recorded no lock file, and made no call but the probes and the two
    messages. *)
Theorem X2_no_lock_directory (E : env) (a0 cmd : string)
    (rest : list string) :
  is_flag cmd = false ->
  let r1 := E 0%nat (stat "/var/lock") in
  let r2 := E 1%nat (stat "/tmp") in
  ret r1 <> 0 \/ (S_ISDIR (st_mode r1) = false /\ ret r2 <> 0) ->
  let res := run_main E (a0 :: cmd :: rest) in
  out res = Returned 1 /\
  (map ev_call (trace res) =
     [stat "/var/lock"; perror "stat"; fprintf_stderr no_lockdir_text] \/
   map ev_call (trace res) =
     [stat "/var/lock"; stat "/tmp"; perror "stat";
      fprintf_stderr no_lockdir_text]) /\
  lockfile (final res) = None /\
  lockfile_fd (final res) = -1 /\
  handlers (final res) = [].
Proof.
  intros F r1 r2 H res. subst res r1 r2.
  rewrite main_auto by exact F.
  unfold then_run, get_lockdir, paths. simpl.
  destruct (ret (E 0%nat (stat "/var/lock")) =? 0) eqn:H1; simpl.
  2:{ repeat split; auto. }
  apply Z.eqb_eq in H1.
  destruct H as [H | (Hd & H2)]; [contradiction|]. rewrite Hd. simpl.
  apply Z.eqb_neq in H2. rewrite H2. simpl. repeat split; auto.
Qed.

Lemma X2_no_lock_directory_witness :
  is_flag "sleep" = false /\
  out (run_main (fun _ _ => failure ENOENT) ["solo"; "sleep"; "100"]%string)
    = Returned 1.
Proof.
  split; [reflexivity|].
  apply (X2_no_lock_directory (fun _ _ => failure ENOENT) "solo" "sleep"
           ["100"%string] eq_refl).
  left. discriminate.
Defined.

(** ** The installation of the handlers *)

(** X3: [install_signal_handlers] stops at the first [sigaction] that
    fails, calls [perror] and returns [errno] as [perror] has left it (the
    error of the [sigaction] when [perror] has not changed [errno]); the
    handlers installed before the failure stay installed, those after it
    are not tried. *)
Theorem X3_install_stops_at_first_failure (E : env) (s : pstate) :
  let n := ncalls s in
  let r1 := E n (sigaction SIGHUP) in
  let r2 := E (S n) (sigaction SIGINT) in
  let r3 := E (S (S n)) (sigaction SIGTERM) in
  let left (r : reply) (k : nat) :=
    let m := E k (perror "sigaction") in
    if err m =? 0 then err r else err m in
  let r := eval E install_signal_handlers s in
  (out r, map ev_call (trace r), handlers (final r)) =
    if ret r1 =? -1 then
      (Returned (left r1 (S n)),
       [sigaction SIGHUP; perror "sigaction"],
       handlers s)
    else if ret r2 =? -1 then
      (Returned (left r2 (S (S n))),
       [sigaction SIGHUP; sigaction SIGINT; perror "sigaction"],
       SIGHUP :: handlers s)
    else if ret r3 =? -1 then
      (Returned (left r3 (S (S (S n)))),
       [sigaction SIGHUP; sigaction SIGINT; sigaction SIGTERM;
        perror "sigaction"],
       SIGINT :: SIGHUP :: handlers s)
    else
      (Returned 0,
       [sigaction SIGHUP; sigaction SIGINT; sigaction SIGTERM],
       SIGTERM :: SIGINT :: SIGHUP :: handlers s).
Proof.
  unfold install_signal_handlers, signals. run_sym; reflexivity.
Qed.

Lemma install_failure (E : env) (s : pstate) (sig : Z) (r : reply) :
  let res := eval E install_signal_handlers s in
  In (Ev (sigaction sig) r) (trace res) -> ret r = -1 ->
  exists m,
    In (Ev (perror "sigaction") m) (trace res) /\
    out res = Returned (if err m =? 0 then err r else err m) /\
    exists pre,
      map ev_call (trace res) = pre ++ [sigaction sig; perror "sigaction"].
Proof.
  unfold install_signal_handlers, signals. run_sym.
  all: intros H Hr; pick H.
  all: injection H as <- <-.
  all: try absurd_tests.
  all: eexists; split; [simpl; eauto 10|]; by_tests.
  all: split; [reflexivity|].
  all: first [now exists []
             | now exists [sigaction SIGHUP]
             | now exists [sigaction SIGHUP; sigaction SIGINT]].
Qed.

Lemma lock_and_run_kinds (E : env) (argv : list string) (cs : nat)
    (s : pstate) (lf : string) :
  lockfile s = Some lf ->
  Forall locking_call (trace (eval E (lock_and_run argv cs) s)).
Proof.
  intros Hl. with_lockfile s Hl.
  unfold lock_and_run, graceful_exit. run_sym.
  all: repeat constructor.
Qed.

(** X4: when a [sigaction] fails (with an error number), [main] returns
    right after the [perror], with [errno] as [perror] has left it (that
    error number when [perror] has not changed [errno]): no lock file is
    created, and nothing is unlinked. *)
Theorem X4_sigaction_failure (E : env) (argv : list string) (sig : Z)
    (r : reply) :
  let res := run_main E argv in
  In (Ev (sigaction sig) r) (trace res) ->
  ret r = -1 -> err r <> 0 ->
  exists m,
  In (Ev (perror "sigaction") m) (trace res) /\
  out res = Returned (if err m =? 0 then err r else err m) /\
  lockfile_fd (final res) = -1 /\
  (exists pre,
     map ev_call (trace res) = pre ++ [sigaction sig; perror "sigaction"]) /\
  (forall e, In e (trace res) -> is_setup (ev_call e) = true).
Proof.
  intros res Hin Hr He. subst res.
  destruct (main_to_tail E argv)
    as [(Hb & _) | (pre & s & lf & Hb & _ & Hl & Hfd & _ & Hres)].
  - exfalso. rewrite Forall_forall in Hb. exact (Hb _ Hin).
  - rewrite Hres in *. unfold prefixed in *. cbn [trace out final] in *.
    apply in_app_or in Hin. destruct Hin as [Hin | Hin].
    { exfalso. rewrite Forall_forall in Hb. exact (Hb _ Hin). }
    unfold main_tail in *. rewrite eval_bind in *.
    destruct (install_eval E s) as ((v & Hv) & Hs & _ & _ & Hf).
    unfold then_run in *. rewrite Hv in *.
    assert (Hi : In (Ev (sigaction sig) r)
                    (trace (eval E install_signal_handlers s))).
    { destruct (negb (v =? 0)); cbn [trace] in Hin;
        apply in_app_or in Hin; destruct Hin as [Hin | Hin]; auto.
      - destruct Hin.
      - exfalso.
        assert (Hl2 : lockfile (final (eval E install_signal_handlers s))
                      = Some lf).
        { destruct (install_eval E s) as (_ & _ & _ & Hl' & _). congruence. }
        pose proof (lock_and_run_kinds E argv (cmd_start_of argv) _ lf Hl2) as K.
        rewrite Forall_forall in K. exact (K _ Hin). }
    destruct (install_failure E s sig r Hi Hr) as (m & Hm & Ho & p & Hp).
    rewrite Hv in Ho. injection Ho as ->.
    assert (Hz : ((if err m =? 0 then err r else err m) =? 0) = false).
    { apply Z.eqb_neq. destruct (err m =? 0) eqn:Z0; [exact He|].
      now apply Z.eqb_neq. }
    rewrite Hz. cbn [negb out final trace eval].
    exists m. split; [apply in_or_app; right; now rewrite app_nil_r|].
    split; [reflexivity|]. split; [congruence|]. split.
    + exists (map ev_call pre ++ p).
      rewrite app_nil_r, map_app, Hp. now rewrite app_assoc.
    + intros e He'. rewrite app_nil_r in He'.
      apply in_app_or in He'. destruct He' as [He' | He'].
      * rewrite Forall_forall in Hb. specialize (Hb _ He').
        unfold before_handlers in Hb. now destruct (ev_call e).
      * unfold setup_only in Hs. rewrite Forall_forall in Hs. now apply Hs.
Qed.

Lemma X4_sigaction_failure_witness :
  let E : env := fun n c =>
    match c with sigaction _ => failure 22 | _ => quiet n c end in
  exists m,
    out (run_main E ["solo"; "-l"; "/tmp/L"; "ls"]%string) =
      Returned (if err m =? 0 then 22 else err m).
Proof.
  cbv zeta.
  destruct (X4_sigaction_failure
              (fun n c =>
                 match c with sigaction _ => failure 22 | _ => quiet n c end)
              ["solo"; "-l"; "/tmp/L"; "ls"]%string SIGHUP (failure 22))
    as (m & _ & H & _).
  - simpl. auto.
  - reflexivity.
  - discriminate.
  - exists m. exact H.
Defined.

(** ** Failures after the handlers *)

(** X5: when [creat] fails, the program reports it, unlinks the lock file
    path all the same, closes nothing (no descriptor is open) and exits
    with [errno] as [perror] has left it (the error of [creat] when
    [perror] has not changed [errno]); [lockf] and [fork] are not
    called. *)
Theorem X5_creat_failure (E : env) (argv : list string) (lf : string)
    (r : reply) :
  let res := run_main E argv in
  In (Ev (creat (Some lf) S_IWUSR) r) (trace res) ->
  ret r = -1 ->
  exists m pre,
    In (Ev (perror "lock file creation failed") m) (trace res) /\
    out res = Exited (if err m =? 0 then err r else err m) /\
    lockfile (final res) = Some lf /\
    lockfile_fd (final res) = -1 /\
    setup_only pre /\
    map ev_call (trace res) =
      map ev_call pre
      ++ [creat (Some lf) S_IWUSR; perror "lock file creation failed";
          unlink (Some lf)].
Proof.
  intros res Hin Hr. subst res.
  destruct (main_reaches_at E argv)
    as [(Hs & _) | (pre & s & lf' & Hs & Hl & _ & Hres)].
  - exfalso. revert Hin. now apply setup_only_not_in.
  - rewrite Hres in *. unfold prefixed in *. cbn [trace out final] in *.
    apply in_after_setup in Hin; [|exact Hs|reflexivity].
    destruct (lock_and_run_paths E argv (cmd_start_of argv) s lf' Hl) as (Ho & _ & Hlf & _).
    assert (lf' = lf).
    { rewrite Forall_forall in Ho. specialize (Ho _ Hin).
      unfold event_ok in Ho. simpl in Ho. congruence. }
    subst lf'.
    destruct (lock_and_run_creat_failure E argv (cmd_start_of argv) s lf Hl r Hin Hr)
      as (m & Hm & Hout & Hfd & Ht).
    exists m, pre. split; [apply in_or_app; now right|].
    split; [exact Hout|]. split; [exact Hlf|]. split; [exact Hfd|].
    split; [exact Hs|]. now rewrite map_app, Ht.
Qed.

Lemma X5_creat_failure_witness :
  In (Ev (creat (Some "/tmp/L"%string) S_IWUSR) (failure ENAMETOOLONG))
     (trace (run_main long_names_refused ["solo"; "-l"; "/tmp/L"; "ls"]%string)) /\
  exists m,
    out (run_main long_names_refused ["solo"; "-l"; "/tmp/L"; "ls"]%string)
      = Exited (if err m =? 0 then ENAMETOOLONG else err m).
Proof.
  split; [simpl; auto 10|].
  destruct (X5_creat_failure long_names_refused
              ["solo"; "-l"; "/tmp/L"; "ls"]%string "/tmp/L"
              (failure ENAMETOOLONG)) as (m & _ & _ & H & _).
  - simpl; auto 10.
  - reflexivity.
  - exists m. exact H.
Defined.

(** X6: when [fork] fails, the program reports it, unlinks the lock file,
    closes the descriptor and exits with [errno] as [perror] has left it
    (the error of [fork] when [perror] has not changed [errno]). *)
Theorem X6_fork_failure (E : env) (argv : list string) (r : reply) :
  let res := run_main E argv in
  In (Ev fork r) (trace res) ->
  ret r = -1 ->
  exists m pre lf fd,
    In (Ev (perror "fork") m) (trace res) /\
    out res = Exited (if err m =? 0 then err r else err m) /\
    setup_only pre /\
    lockfile (final res) = Some lf /\
    lockfile_fd (final res) = fd /\
    map ev_call (trace res) =
      map ev_call pre
      ++ [creat (Some lf) S_IWUSR; lockf fd F_TLOCK 0; fork; perror "fork";
          unlink (Some lf); close fd].
Proof.
  intros res Hin Hr. subst res.
  destruct (main_reaches_at E argv)
    as [(Hs & _) | (pre & s & lf & Hs & Hl & _ & Hres)].
  - exfalso. revert Hin. now apply setup_only_not_in.
  - rewrite Hres in *. unfold prefixed in *. cbn [trace out final] in *.
    apply in_after_setup in Hin; [|exact Hs|reflexivity].
    destruct (lock_and_run_paths E argv (cmd_start_of argv) s lf Hl) as (_ & _ & Hlf & _).
    destruct (lock_and_run_fork_failure E argv (cmd_start_of argv) s lf Hl r Hin Hr)
      as (m & fd & Hm & Hout & Hfd & Ht).
    exists m, pre, lf, fd. split; [apply in_or_app; now right|].
    split; [exact Hout|].
    split; [exact Hs|]. split; [exact Hlf|]. split; [exact Hfd|].
    now rewrite map_app, Ht.
Qed.

Lemma X6_fork_failure_witness :
  let E : env := fun n c =>
    match c with fork => failure EAGAIN | _ => quiet n c end in
  exists m,
    out (run_main E ["solo"; "sleep"; "100"]%string) =
      Exited (if err m =? 0 then EAGAIN else err m).
Proof.
  cbv zeta.
  destruct (X6_fork_failure
              (fun n c =>
                 match c with fork => failure EAGAIN | _ => quiet n c end)
              ["solo"; "sleep"; "100"]%string (failure EAGAIN))
    as (m & _ & _ & _ & _ & H & _).
  - simpl; auto 10.
  - reflexivity.
  - exists m. exact H.
Defined.

(** X7: when [waitpid] fails, the program reports it, unlinks the lock
    file, closes the descriptor and exits with [errno] as [perror] has
    left it (the error of [waitpid] when [perror] has not changed
    [errno]). *)
Theorem X7_wait_failure (E : env) (argv : list string) (pid : Z)
    (r : reply) :
  let res := run_main E argv in
  In (Ev (waitpid pid 0) r) (trace res) ->
  ret r = -1 ->
  exists m pre lf fd,
    In (Ev (perror "waitpid") m) (trace res) /\
    out res = Exited (if err m =? 0 then err r else err m) /\
    setup_only pre /\
    lockfile (final res) = Some lf /\
    lockfile_fd (final res) = fd /\
    map ev_call (trace res) =
      map ev_call pre
      ++ [creat (Some lf) S_IWUSR; lockf fd F_TLOCK 0; fork; waitpid pid 0;
          perror "waitpid"; unlink (Some lf); close fd].
Proof.
  intros res Hin Hr. subst res.
  destruct (main_reaches_at E argv)
    as [(Hs & _) | (pre & s & lf & Hs & Hl & _ & Hres)].
  - exfalso. revert Hin. now apply setup_only_not_in.
  - rewrite Hres in *. unfold prefixed in *. cbn [trace out final] in *.
    apply in_after_setup in Hin; [|exact Hs|reflexivity].
    destruct (lock_and_run_paths E argv (cmd_start_of argv) s lf Hl) as (_ & _ & Hlf & _).
    destruct (lock_and_run_wait_failure E argv (cmd_start_of argv) s lf Hl pid r Hin Hr)
      as (m & fd & Hm & Hout & Hfd & Ht).
    exists m, pre, lf, fd. split; [apply in_or_app; now right|].
    split; [exact Hout|].
    split; [exact Hs|]. split; [exact Hlf|]. split; [exact Hfd|].
    now rewrite map_app, Ht.
Qed.

Lemma X7_wait_failure_witness :
  let E : env := fun n c =>
    match c with waitpid _ _ => failure 4 | _ => quiet n c end in
  exists m,
    out (run_main E ["solo"; "sleep"; "100"]%string) =
      Exited (if err m =? 0 then 4 else err m).
Proof.
  cbv zeta.
  destruct (X7_wait_failure
              (fun n c =>
                 match c with waitpid _ _ => failure 4 | _ => quiet n c end)
              ["solo"; "sleep"; "100"]%string 4242 (failure 4))
    as (m & _ & _ & _ & _ & H & _).
  - simpl; auto 10.
  - reflexivity.
  - exists m. exact H.
Defined.

(** ** The child *)

(** X8: on the child's side of [fork], the run never unlinks the lock
    file: release is left to the parent.  When a command is given
    ([argv[cmd_start]] is not [NULL]), the child closes the descriptor and
    calls [execvp] on [argv] from [cmd_start] on; when [execvp] fails it
    reports it and [main] returns [errno] as [perror] has left it (the
    error of [execvp] when [perror] has not changed [errno]). *)
Theorem X8_child_does_not_release (E : env) (argv : list string)
    (r : reply) :
  let res := run_main E argv in
  let cs := cmd_start_of argv in
  In (Ev fork r) (trace res) ->
  ret r = 0 ->
  (forall p r', ~ In (Ev (unlink p) r') (trace res)) /\
  (forall file, arg argv cs = Some file ->
   exists pre lf fd x,
     setup_only pre /\
     In (Ev (execvp (Some file) (skipn cs argv)) x) (trace res) /\
     map ev_call (trace res) =
       map ev_call pre
       ++ [creat (Some lf) S_IWUSR; lockf fd F_TLOCK 0; fork; close fd;
           execvp (Some file) (skipn cs argv)]
       ++ (if ret x =? -1 then [perror "failed to exec program"] else []) /\
     if ret x =? -1 then
       exists m,
         In (Ev (perror "failed to exec program") m) (trace res) /\
         out res = Returned (if err m =? 0 then err x else err m)
     else out res = Replaced).
Proof.
  intros res cs Hin Hr. subst res cs.
  destruct (main_reaches_at E argv)
    as [(Hs & _) | (pre & s & lf & Hs & Hl & _ & Hres)].
  - exfalso. revert Hin. now apply setup_only_not_in.
  - rewrite Hres in *. unfold prefixed in *. cbn [trace out final] in *.
    apply in_after_setup in Hin; [|exact Hs|reflexivity].
    destruct (lock_and_run_child E argv (cmd_start_of argv) s lf Hl r Hin Hr)
      as (fd & x & Hx & Ht & Hout).
    split.
    + intros p r' Hu. apply in_after_setup in Hu; [|exact Hs|reflexivity].
      apply (in_map ev_call) in Hu. rewrite Ht in Hu. simpl in Hu.
      destruct (ret x =? -1); simpl in Hu;
        repeat (destruct Hu as [Hu | Hu]; [discriminate Hu|]); exact Hu.
    + intros file Hfile. rewrite Hfile in *.
      exists pre, lf, fd, x. split; [exact Hs|].
      split; [apply in_or_app; now right|].
      split; [now rewrite map_app, Ht|].
      destruct (ret x =? -1); [|exact Hout].
      destruct Hout as (m & Hm & Hout). exists m.
      split; [apply in_or_app; now right | exact Hout].
Qed.

Lemma X8_child_does_not_release_witness :
  In (Ev fork (success 0))
     (trace (run_main child_side ["solo"; "sleep"; "100"]%string)) /\
  ret (success 0) = 0 /\
  forall p r',
    ~ In (Ev (unlink p) r')
         (trace (run_main child_side ["solo"; "sleep"; "100"]%string)).
Proof.
  split; [simpl; auto 10|]. split; [reflexivity|].
  apply (X8_child_does_not_release child_side
           ["solo"; "sleep"; "100"]%string (success 0)).
  - simpl; auto 10.
  - reflexivity.
Defined.

(** ** The order of the phases *)

(** X9: the command is never started without the lock: a run that calls
    [fork], [execvp] or [waitpid] has first created the lock file and
    locked it with success, and these two calls and the [fork] follow one
    another. *)
Theorem X9_launch_only_with_lock (E : env) (argv : list string) (e : event) :
  let res := run_main E argv in
  In e (trace res) ->
  is_launch (ev_call e) = true ->
  exists pre lf rc rl rf t,
    setup_only pre /\
    lockfile (final res) = Some lf /\
    trace res =
      pre ++ Ev (creat (Some lf) S_IWUSR) rc
          :: Ev (lockf (ret rc) F_TLOCK 0) rl
          :: Ev fork rf :: t /\
    ret rc <> -1 /\ ret rl <> -1 /\
    (e = Ev fork rf \/ In e t).
Proof.
  intros res Hin He. subst res.
  destruct (main_reaches_at E argv)
    as [(Hs & _) | (pre & s & lf & Hs & Hl & _ & Hres)].
  - exfalso. revert Hin. apply setup_only_not_in; [exact Hs|].
    unfold is_launch in He. now destruct (ev_call e).
  - rewrite Hres in *. unfold prefixed in *. cbn [trace out final] in *.
    apply in_after_setup in Hin;
      [|exact Hs|unfold is_launch in He; now destruct (ev_call e)].
    destruct (lock_and_run_paths E argv (cmd_start_of argv) s lf Hl)
      as (_ & _ & Hlf & _).
    destruct (lock_and_run_order E argv (cmd_start_of argv) s lf Hl e Hin He)
      as (rc & rl & rf & t & Ht & Hc & Hk & Hor).
    exists pre, lf, rc, rl, rf, t.
    split; [exact Hs|]. split; [exact Hlf|]. split; [now rewrite Ht|].
    auto.
Qed.

Lemma X9_launch_only_with_lock_witness :
  exists rc rl,
    In (Ev (waitpid 4242 0) (success 4242))
       (trace (run_main quiet ["solo"; "sleep"; "100"]%string)) /\
    ret rc <> -1 /\ ret rl <> -1.
Proof.
  destruct (X9_launch_only_with_lock quiet ["solo"; "sleep"; "100"]%string
              (Ev (waitpid 4242 0) (success 4242)))
    as (_ & _ & rc & rl & _ & _ & _ & _ & _ & Hc & Hl & _).
  - simpl; auto 10.
  - reflexivity.
  - exists rc, rl. split; [simpl; auto 10|]. split; assumption.
Defined.

Lemma count_calls_app (kind : call -> bool) (a b : list event) :
  count_calls kind (a ++ b) = (count_calls kind a + count_calls kind b)%nat.
Proof. unfold count_calls. now rewrite filter_app, length_app. Qed.

Lemma count_calls_setup (kind : call -> bool) (pre : list event) :
  (forall c, is_setup c = true -> kind c = false) ->
  setup_only pre -> count_calls kind pre = 0%nat.
Proof.
  intros K Hs. unfold count_calls, setup_only in *.
  induction Hs as [|e t He _ IH]; [reflexivity|].
  simpl. now rewrite (K _ He).
Qed.

(** X10: nothing is retried: a run calls [creat], [lockf], [fork],
    [execvp], [waitpid] and [unlink] at most once each, and its [lockf] is
    the non-blocking [F_TLOCK] on the whole file, on the descriptor it got
    from [creat]. *)
Theorem X10_no_retry_no_blocking (E : env) (argv : list string) :
  let res := run_main E argv in
  (count_calls is_creat (trace res) <= 1)%nat /\
  (count_calls is_lockf (trace res) <= 1)%nat /\
  (count_calls is_fork (trace res) <= 1)%nat /\
  (count_calls is_exec (trace res) <= 1)%nat /\
  (count_calls is_waitpid (trace res) <= 1)%nat /\
  (count_calls is_unlink (trace res) <= 1)%nat /\
  (forall fd cmd len r, In (Ev (lockf fd cmd len) r) (trace res) ->
     cmd = F_TLOCK /\ len = 0 /\ fd = lockfile_fd (final res)).
Proof.
  intros res. subst res.
  destruct (main_reaches_at E argv)
    as [(Hs & _) | (pre & s & lf & Hs & Hl & _ & Hres)].
  - repeat split;
      try (rewrite count_calls_setup;
           [lia | intros c; now destruct c | exact Hs]).
    all: exfalso; revert H; now apply setup_only_not_in.
  - rewrite Hres. unfold prefixed. cbn [trace out final].
    destruct (lock_and_run_counts E argv (cmd_start_of argv) s lf Hl)
      as (H1 & H2 & H3 & H4 & H5 & H6 & H7).
    rewrite !count_calls_app.
    rewrite !(count_calls_setup _ pre) by
      (try exact Hs; intros c; now destruct c).
    repeat split; try assumption.
    all: apply in_after_setup in H; [|exact Hs|reflexivity];
      now destruct (H7 _ _ _ _ H) as (? & ? & ?).
Qed.

(** X11: on a system whose failures carry an error number, an exit
    status 0 means that the command was started and that [waitpid] on it
    succeeded. *)
Theorem X11_exit_zero_means_waited (E : env) (argv : list string) :
  sane E ->
  let res := run_main E argv in
  exit_code res = Some 0 ->
  exists pid r, In (Ev (waitpid pid 0) r) (trace res) /\ ret r <> -1.
Proof.
  intros Hsane res H0. subst res.
  destruct (main_reaches_at E argv)
    as [(Hs & _ & v & Hv & Hn) | (pre & s & lf & Hs & Hl & _ & Hres)].
  - unfold exit_code in H0. rewrite Hv in H0. congruence.
  - rewrite Hres in *. unfold prefixed, exit_code in *.
    cbn [trace out final] in *.
    destruct (lock_and_run_exit_zero E argv (cmd_start_of argv) s lf Hl
                Hsane H0) as (pid & r & Hin & Hr).
    exists pid, r. split; [apply in_or_app; now right | exact Hr].
Qed.

Lemma steady_sane : sane steady.
Proof.
  intros n c. split.
  - destruct c; simpl; discriminate.
  - intros ->. simpl. lia.
Qed.

Lemma X11_exit_zero_means_waited_witness :
  sane steady /\
  exit_code (run_main steady ["solo"; "sleep"; "100"]%string) = Some 0 /\
  exists pid r,
    In (Ev (waitpid pid 0) r)
       (trace (run_main steady ["solo"; "sleep"; "100"]%string)) /\
    ret r <> -1.
Proof.
  split; [exact steady_sane|]. split; [reflexivity|].
  apply (X11_exit_zero_means_waited steady ["solo"; "sleep"; "100"]%string
           steady_sane).
  reflexivity.
Defined.

(** X12: release is what separates [exit] from [return]: a run ends in
    [exit] exactly when it has unlinked a path, and the only path it ever
    unlinks is the lock file recorded. *)
Theorem X12_release_iff_exit (E : env) (argv : list string) :
  let res := run_main E argv in
  ((exists code, out res = Exited code) <->
   (exists p r, In (Ev (unlink p) r) (trace res))) /\
  (forall p r, In (Ev (unlink p) r) (trace res) -> p = lockfile (final res)).
Proof.
  intros res. subst res.
  destruct (main_reaches_at E argv)
    as [(Hs & _ & v & Hv & _) | (pre & s & lf & Hs & Hl & _ & Hres)].
  - split; [split|].
    + intros (code & H). congruence.
    + intros (p & r & H). exfalso. revert H. now apply setup_only_not_in.
    + intros p r H. exfalso. revert H. now apply setup_only_not_in.
  - rewrite Hres. unfold prefixed. cbn [trace out final].
    destruct (lock_and_run_release_iff_exit E argv (cmd_start_of argv) s lf Hl)
      as (Hiff & Hp).
    destruct (lock_and_run_paths E argv (cmd_start_of argv) s lf Hl)
      as (_ & _ & Hlf & _).
    split; [split|].
    + intros Hx. apply Hiff in Hx. destruct Hx as (r & Hr).
      exists (Some lf), r. apply in_or_app. now right.
    + intros (p & r & H). apply in_after_setup in H; [|exact Hs|reflexivity].
      apply Hiff. rewrite (Hp _ _ H) in H. now exists r.
    + intros p r H. apply in_after_setup in H; [|exact Hs|reflexivity].
      rewrite Hlf. now apply (Hp _ r).
Qed.

(** ** The lock file derived from the command *)

Lemma derive_lockfile (E : env) (argv : list string) (cmd : string)
    (d : cstr) (s : pstate) :
  lockfile (final (derive E argv cmd d s)) =
    match d with
    | Some D =>
        if String.eqb (basename cmd) EmptyString then lockfile s
        else Some (fst (snprintf_lock PATH_MAX D (basename cmd)))
    | None => lockfile s
    end.
Proof.
  destruct d as [D|]; [|reflexivity].
  destruct (String.eqb (basename cmd) EmptyString) eqn:B.
  - unfold derive. rewrite B. reflexivity.
  - destruct (derive_events E argv cmd D s) as (_ & H).
    apply H. intros C. rewrite C in B. discriminate B.
Qed.

(** X13: without the flag, the lock file depends on the command only
    through its basename: two commands with the same basename, whatever
    their directories and their arguments, record the same lock file
    (on the same system). *)
Theorem X13_same_basename_same_lock (E : env) (a0 b0 cmd1 cmd2 : string)
    (rest1 rest2 : list string) :
  is_flag cmd1 = false -> is_flag cmd2 = false ->
  basename cmd1 = basename cmd2 ->
  lockfile (final (run_main E (a0 :: cmd1 :: rest1))) =
  lockfile (final (run_main E (b0 :: cmd2 :: rest2))).
Proof.
  intros F1 F2 B. rewrite !main_auto by assumption.
  destruct (get_lockdir_eval E initial) as ((d & Hd) & _).
  unfold then_run. rewrite Hd. cbn [final].
  rewrite !derive_lockfile, B. reflexivity.
Qed.

Lemma X13_same_basename_same_lock_witness :
  is_flag "/usr/bin/sleep" = false /\ is_flag "sleep" = false /\
  basename "/usr/bin/sleep" = basename "sleep" /\
  lockfile (final (run_main quiet ["solo"; "/usr/bin/sleep"; "100"]%string)) =
  lockfile (final (run_main quiet ["/bin/solo"; "sleep"; "5"; "x"]%string)).
Proof.
  split; [reflexivity|]. split; [reflexivity|]. split; [reflexivity|].
  apply (X13_same_basename_same_lock quiet "solo" "/bin/solo"
           "/usr/bin/sleep" "sleep" ["100"%string] ["5"; "x"]%string);
    reflexivity.
Defined.

Lemma substring_prefix (t : string) (n : nat) :
  exists rest, t = (substring 0 n t ++ rest)%string.
Proof.
  revert n. induction t as [|c t IH]; intros n.
  - exists EmptyString. now destruct n.
  - destruct n as [|n].
    + exists (String c t). reflexivity.
    + destruct (IH n) as (rest & Hr). exists rest. simpl. now rewrite <- Hr.
Qed.

Lemma substring_length (t : string) (n : nat) :
  String.length (substring 0 n t) = Nat.min n (String.length t).
Proof.
  revert n. induction t as [|c t IH]; intros n.
  - now destruct n.
  - destruct n as [|n]; simpl; [reflexivity|]. now rewrite IH.
Qed.

Lemma main_tail_no_too_large (E : env) (argv : list string) (cs : nat)
    (s : pstate) (lf : string) :
  lockfile s = Some lf ->
  Forall (fun e => ev_call e <> fprintf_stderr too_large_text)
         (trace (eval E (main_tail argv cs) s)).
Proof.
  intros Hl.
  assert (Hh : forall pre, Forall handler_call pre ->
                 Forall (fun e => ev_call e <> fprintf_stderr too_large_text) pre).
  { intros pre H. eapply Forall_impl; [|exact H].
    intros e. unfold handler_call. destruct (ev_call e); easy. }
  destruct (main_tail_reaches E argv cs s)
    as (pre & _ & Hp & [(Ht & _) | (s' & Hl' & _ & Hr)]).
  - rewrite Ht. now apply Hh.
  - rewrite Hr. unfold prefixed. cbn [trace]. apply Forall_app. split.
    + now apply Hh.
    + apply lock_and_run_no_too_large with (lf := lf). congruence.
Qed.

Lemma get_lockdir_probes (E : env) (s : pstate) :
  Forall probe_call (trace (eval E get_lockdir s)).
Proof. unfold get_lockdir, paths. run_sym; repeat constructor. Qed.

Lemma main_tail_first (E : env) (argv : list string) (cs : nat) (s : pstate) :
  exists r, In (Ev (sigaction SIGHUP) r) (trace (eval E (main_tail argv cs) s)).
Proof.
  unfold main_tail. rewrite eval_bind.
  assert (H : exists r, In (Ev (sigaction SIGHUP) r)
                          (trace (eval E install_signal_handlers s))).
  { unfold install_signal_handlers, signals. simpl. eexists. now left. }
  destruct H as (r & Hr). exists r.
  destruct (install_eval E s) as ((v & Hv) & _).
  unfold then_run. rewrite Hv. cbn [trace]. apply in_or_app. now left.
Qed.

(** X14: without the flag, with the lock directory resolved to [D] and a
    basename that is not empty, the lock file recorded is the beginning of
    [D]/solo-lock-basename, cut at [PATH_MAX - 1] characters; the message
    that the path is too large is printed exactly when the whole path has
    [PATH_MAX] characters or more, and in both cases the run goes on to
    install the handlers. *)
Theorem X14_recorded_path_is_cut (E : env) (a0 cmd : string)
    (rest : list string) (D : string) :
  is_flag cmd = false ->
  out (eval E get_lockdir initial) = Returned (Some D) ->
  basename cmd <> EmptyString ->
  let res := run_main E (a0 :: cmd :: rest) in
  let full := lock_path D (basename cmd) in
  exists cut rest',
    lockfile (final res) = Some cut /\
    full = (cut ++ rest')%string /\
    String.length cut = Nat.min 4095 (String.length full) /\
    ((exists r, In (Ev (fprintf_stderr too_large_text) r) (trace res)) <->
     PATH_MAX <= Z.of_nat (String.length full)) /\
    (exists r, In (Ev (sigaction SIGHUP) r) (trace res)).
Proof.
  intros F Hd Hb res full. subst res full.
  destruct (substring_prefix (lock_path D (basename cmd)) 4095)
    as (rest' & Hrest).
  exists (substring 0 4095 (lock_path D (basename cmd))), rest'.
  rewrite main_auto by exact F.
  pose proof (get_lockdir_probes E initial) as Hk.
  unfold then_run. rewrite Hd. cbn [final trace].
  generalize dependent (eval E get_lockdir initial). intros r0 _ Hk.
  split; [|split; [exact Hrest|split; [apply substring_length|]]].
  { rewrite derive_lockfile. apply String.eqb_neq in Hb. now rewrite Hb. }
  assert (N0 : forall r, ~ In (Ev (fprintf_stderr too_large_text) r) (trace r0)).
  { intros r Hin. rewrite Forall_forall in Hk. exact (Hk _ Hin). }
  unfold derive. apply String.eqb_neq in Hb. rewrite Hb.
  destruct (Z.of_nat (String.length (lock_path D (basename cmd))) >=? PATH_MAX)
    eqn:L.
  - rewrite eval_sys_put by reflexivity. unfold prefixed. cbn [trace].
    split.
    + split.
      * intros _. apply Z.geb_le in L. exact L.
      * intros _. eexists. apply in_or_app. right. now left.
    + destruct (main_tail_first E (a0 :: cmd :: rest) 1
                  (set_lockfile
                     (Some (fst (snprintf_lock PATH_MAX D (basename cmd))))
                     (after_call (fprintf_stderr too_large_text)
                        (E (ncalls (final r0)) (fprintf_stderr too_large_text))
                        (final r0)))) as (r & Hr).
      exists r. apply in_or_app. right. now right.
  - split.
    + split.
      * intros (r & Hin). exfalso. apply in_app_or in Hin.
        destruct Hin as [Hin | Hin]; [exact (N0 _ Hin)|].
        pose proof (main_tail_no_too_large E (a0 :: cmd :: rest) 1
                      (set_lockfile
                         (Some (fst (snprintf_lock PATH_MAX D (basename cmd))))
                         (final r0)) _ eq_refl) as N.
        rewrite Forall_forall in N. exact (N _ Hin eq_refl).
      * intros Hle. exfalso.
        rewrite Z.geb_leb in L. apply Z.leb_gt in L. lia.
    + destruct (main_tail_first E (a0 :: cmd :: rest) 1
                  (set_lockfile
                     (Some (fst (snprintf_lock PATH_MAX D (basename cmd))))
                     (final r0))) as (r & Hr).
      exists r. apply in_or_app. now right.
Qed.

Lemma X14_recorded_path_is_cut_witness :
  is_flag long_name = false /\
  out (eval quiet get_lockdir initial) = Returned (Some "/var/lock"%string) /\
  basename long_name <> EmptyString /\
  exists r,
    In (Ev (fprintf_stderr too_large_text) r)
       (trace (run_main quiet ["solo"%string; long_name])).
Proof.
  split; [reflexivity|]. split; [reflexivity|].
  split; [now vm_compute|].
  destruct (X14_recorded_path_is_cut quiet "solo" long_name [] "/var/lock"
              eq_refl eq_refl)
    as (_ & _ & _ & _ & _ & H & _).
  - now vm_compute.
  - apply H. now vm_compute.
Defined.

(** ** Signals at the edges *)

Lemma installed_after (sig : Z) (c : call) (r : reply) (s : pstate) :
  installed sig s = true -> installed sig (after_call c r s) = true.
Proof.
  unfold installed. destruct c; simpl; auto.
  destruct (ret r =? -1); simpl; auto. intros ->. apply orb_true_r.
Qed.

(** The four steps from the start to the end of
    [install_signal_handlers], when the lock file is given and every
    [sigaction] succeeds. *)
Lemma exec_to_lock_and_run (E : env) (a0 flag lfile : string)
    (rest : list string) :
  flag = "-l"%string \/ flag = "--lockfile"%string ->
  (forall n g, ret (E n (sigaction g)) <> -1) ->
  let argv := a0 :: flag :: lfile :: rest in
  exists s4 l4,
    exec E (repeat Tick 4) (start argv) =
      mkConfig (Running (lock_and_run argv 3)) s4 l4 /\
    lockfile s4 = Some lfile /\ lockfile_fd s4 = -1 /\
    handlers s4 = [SIGTERM; SIGINT; SIGHUP] /\
    ncalls s4 = 3%nat /\
    map ev_call (rev l4) =
      [sigaction SIGHUP; sigaction SIGINT; sigaction SIGTERM].
Proof.
  intros Hflag Hok argv.
  subst argv. unfold start, main.
  destruct Hflag as [-> | ->]; simpl; unfold step; simpl;
    unfold step; simpl.
  all: pose proof (Hok 0%nat SIGHUP) as K1; apply Z.eqb_neq in K1;
    rewrite K1; unfold step; simpl.
  all: pose proof (Hok 1%nat SIGINT) as K2; apply Z.eqb_neq in K2;
    rewrite K2; unfold step; simpl.
  all: pose proof (Hok 2%nat SIGTERM) as K3; apply Z.eqb_neq in K3;
    rewrite K3; simpl.
  all: do 2 eexists; split; [reflexivity|]; simpl; rewrite K1, K2, K3;
    auto 6.
Qed.

(** The seven steps of [lock_and_run] up to the return of [fork] in the
    child, when the lock is taken. *)
Lemma exec_to_child (E : env) (argv : list string) (cmd_start : nat)
    (s : pstate) (l : list event) :
  let fd := ret (E (ncalls s) (creat (lockfile s) S_IWUSR)) in
  fd <> -1 ->
  ret (E (S (ncalls s)) (lockf fd F_TLOCK 0)) <> -1 ->
  ret (E (S (S (ncalls s))) fork) = 0 ->
  exists p s7 l7,
    exec E (repeat Tick 7)
         (mkConfig (Running (lock_and_run argv cmd_start)) s l) =
      mkConfig (Running p) s7 l7 /\
    lockfile s7 = lockfile s /\ lockfile_fd s7 = fd /\
    handlers s7 = handlers s /\
    map ev_call (rev l7) =
      map ev_call (rev l) ++
      [creat (lockfile s) S_IWUSR; lockf fd F_TLOCK 0; fork].
Proof.
  intros fd Hfd Hlock Hfork. subst fd.
  apply Z.eqb_neq in Hfd, Hlock.
  unfold lock_and_run. simpl. unfold step. simpl.
  unfold step. simpl. unfold step. simpl. unfold step. simpl.
  rewrite Hfd. simpl. unfold step. simpl. unfold step. simpl.
  rewrite Hlock. simpl. unfold step. simpl.
  do 3 eexists. split; [reflexivity|]. simpl.
  rewrite !map_app, <- !app_assoc. auto.
Qed.

(** X15: a signal that arrives after the handlers are installed and before
    the lock file is created makes the program unlink the lock file path,
    which it has not created, and exit with status 1; no descriptor is
    open, so nothing is closed. *)
Theorem X15_signal_before_creat (E : env) (a0 flag lfile : string)
    (rest : list string) (sig : Z) :
  flag = "-l"%string \/ flag = "--lockfile"%string ->
  (forall n g, ret (E n (sigaction g)) <> -1) ->
  In sig [SIGHUP; SIGINT; SIGTERM] ->
  exists n,
    let c := exec E (repeat Tick 4 ++ Signal sig :: repeat Tick n)
                  (start (a0 :: flag :: lfile :: rest)) in
    st c = Done (Exited 1) /\
    map ev_call (history c) =
      [sigaction SIGHUP; sigaction SIGINT; sigaction SIGTERM;
       unlink (Some lfile)].
Proof.
  intros Hflag Hok Hsig.
  set (argv := a0 :: flag :: lfile :: rest).
  pose proof (exec_to_lock_and_run E a0 flag lfile rest Hflag Hok) as H4.
  cbv zeta in H4. fold argv in H4.
  destruct H4 as (s4 & l4 & H4 & Hl & Hfd & Hh & _ & Hcalls).
  assert (Hin : installed sig s4 = true).
  { apply installed_in. rewrite Hh. simpl in *. intuition. }
  destruct (exec_ticks_eval E (signal_handler sig ;; lock_and_run argv 3) s4 l4)
    as (n & Hn).
  destruct (graceful_exit_eval (A := unit) E 1 s4) as (Hx & Hc & _).
  assert (Hrun : exec E (repeat Tick 4 ++ Signal sig :: repeat Tick n)
                      (start argv) =
                 mkConfig (Done (Exited 1))
                          (final (eval E (signal_handler sig) s4))
                          (rev (trace (eval E (signal_handler sig) s4)) ++ l4)).
  { rewrite exec_app, H4. cbn [exec]. unfold step. cbn [st ps log].
    rewrite Hin, Hn. rewrite eval_bind. unfold then_run, signal_handler.
    rewrite Hx. reflexivity. }
  exists n. cbv zeta. rewrite Hrun. unfold history. cbn [st log].
  split; [reflexivity|].
  rewrite rev_app_distr, rev_involutive, map_app, Hcalls.
  unfold signal_handler. rewrite Hc.
  unfold release_calls. rewrite Hl, Hfd. reflexivity.
Qed.

Lemma X15_signal_before_creat_witness :
  exists n,
    st (exec quiet (repeat Tick 4 ++ Signal SIGTERM :: repeat Tick n)
             (start ["solo"; "-l"; "/tmp/L"; "sleep"; "100"]%string))
    = Done (Exited 1).
Proof.
  destruct (X15_signal_before_creat quiet "solo" "-l" "/tmp/L"
              ["sleep"; "100"]%string SIGTERM) as (n & H & _).
  - now left.
  - discriminate.
  - simpl. auto.
  - exists n. exact H.
Defined.

(** X16: release is not guarded against a second entry: when a handled
    signal arrives in [graceful_exit] after the [close] and before the
    [exit], the handler unlinks the lock file path and closes the
    descriptor number once more, and the process exits with status 1
    whatever status [graceful_exit] was called with. *)
Theorem X16_release_runs_twice (E : env) (s : pstate) (l : list event)
    (lf : string) (status sig : Z) :
  lockfile s = Some lf ->
  lockfile_fd s <> -1 ->
  In sig (handlers s) ->
  exists n,
    let c := exec E (repeat Tick 4 ++ Signal sig :: repeat Tick n)
                  (mkConfig (Running (graceful_exit status)) s l) in
    st c = Done (Exited 1) /\
    map ev_call (history c) =
      map ev_call (rev l)
      ++ [unlink (Some lf); close (lockfile_fd s);
          unlink (Some lf); close (lockfile_fd s)].
Proof.
  intros Hl Hfd Hsig.
  assert (H4 : exists s4 r1 r2,
             exec E (repeat Tick 4)
                  (mkConfig (Running (graceful_exit status)) s l) =
               mkConfig (Running (Exit status)) s4
                        (Ev (close (lockfile_fd s)) r2
                         :: Ev (unlink (Some lf)) r1 :: l) /\
             lockfile s4 = Some lf /\ lockfile_fd s4 = lockfile_fd s /\
             installed sig s4 = true).
  { apply Z.eqb_neq in Hfd. unfold graceful_exit. simpl.
    unfold step. simpl. rewrite Hl. simpl. unfold step. simpl.
    rewrite Hfd. simpl. unfold step. simpl.
    do 3 eexists. split; [reflexivity|]. simpl.
    split; [exact Hl|]. split; [reflexivity|].
    do 2 apply installed_after. now apply installed_in. }
  destruct H4 as (s4 & r1 & r2 & H4 & Hl4 & Hfd4 & Hin).
  set (l4 := Ev (close (lockfile_fd s)) r2 :: Ev (unlink (Some lf)) r1 :: l) in *.
  destruct (exec_ticks_eval E (signal_handler sig ;; Exit status) s4 l4)
    as (n & Hn).
  destruct (graceful_exit_eval (A := unit) E 1 s4) as (Hx & Hc & _).
  assert (Hrun : exec E (repeat Tick 4 ++ Signal sig :: repeat Tick n)
                      (mkConfig (Running (graceful_exit status)) s l) =
                 mkConfig (Done (Exited 1))
                          (final (eval E (signal_handler sig) s4))
                          (rev (trace (eval E (signal_handler sig) s4)) ++ l4)).
  { rewrite exec_app, H4. cbn [exec]. unfold step. cbn [st ps log].
    rewrite Hin, Hn. rewrite eval_bind. unfold then_run, signal_handler.
    rewrite Hx. reflexivity. }
  exists n. cbv zeta. rewrite Hrun. unfold history. cbn [st log].
  split; [reflexivity|].
  rewrite rev_app_distr, rev_involutive, map_app.
  unfold signal_handler. rewrite Hc.
  unfold release_calls. rewrite Hl4, Hfd4.
  apply Z.eqb_neq in Hfd. rewrite Hfd.
  subst l4. simpl. rewrite !map_app. simpl. rewrite <- !app_assoc.
  reflexivity.
Qed.

Lemma X16_release_runs_twice_witness :
  let s := mkState (Some "/tmp/L"%string) 3 0 [SIGTERM; SIGINT; SIGHUP] 7 in
  exists n,
    st (exec quiet (repeat Tick 4 ++ Signal SIGINT :: repeat Tick n)
             (mkConfig (Running (graceful_exit 0)) s []))
    = Done (Exited 1).
Proof.
  cbv zeta.
  destruct (X16_release_runs_twice quiet
              (mkState (Some "/tmp/L"%string) 3 0 [SIGTERM; SIGINT; SIGHUP] 7)
              [] "/tmp/L" 0 SIGINT) as (n & H & _).
  - reflexivity.
  - discriminate.
  - simpl. auto.
  - exists n. exact H.
Defined.

(** X17: the handlers are still in place in the child until [execvp]: a
    handled signal that reaches the child right after [fork] makes the
    child unlink the lock file, which the parent holds locked, close its
    descriptor and exit with status 1. *)
Theorem X17_signal_in_child (E : env) (a0 flag lfile : string)
    (rest : list string) (sig : Z) :
  flag = "-l"%string \/ flag = "--lockfile"%string ->
  (forall n g, ret (E n (sigaction g)) <> -1) ->
  let fd := ret (E 3%nat (creat (Some lfile) S_IWUSR)) in
  fd <> -1 ->
  ret (E 4%nat (lockf fd F_TLOCK 0)) <> -1 ->
  ret (E 5%nat fork) = 0 ->
  In sig [SIGHUP; SIGINT; SIGTERM] ->
  exists n,
    let c := exec E (repeat Tick 11 ++ Signal sig :: repeat Tick n)
                  (start (a0 :: flag :: lfile :: rest)) in
    st c = Done (Exited 1) /\
    map ev_call (history c) =
      [sigaction SIGHUP; sigaction SIGINT; sigaction SIGTERM;
       creat (Some lfile) S_IWUSR; lockf fd F_TLOCK 0; fork;
       unlink (Some lfile); close fd].
Proof.
  intros Hflag Hok fd Hfd Hlock Hfork Hsig.
  set (argv := a0 :: flag :: lfile :: rest).
  subst fd.
  destruct (exec_to_lock_and_run E a0 flag lfile rest Hflag Hok)
    as (s4 & l4 & H4 & Hl4 & _ & Hh4 & Hn4 & Hcalls4).
  fold argv in H4.
  destruct (exec_to_child E argv 3 s4 l4)
    as (p & s11 & l11 & H7 & Hl & Hf & Hh & Hcalls);
    rewrite ?Hn4, ?Hl4; auto.
  rewrite Hl4, Hn4 in Hf. rewrite Hl4, Hn4, Hcalls4 in Hcalls.
  rewrite Hl4 in Hl. rewrite Hh4 in Hh.
  assert (H11 : exec E (repeat Tick 11) (start argv) =
                  mkConfig (Running p) s11 l11).
  { change 11%nat with (4 + 7)%nat.
    now rewrite repeat_app, exec_app, H4. }
  assert (Hin : installed sig s11 = true).
  { apply installed_in. rewrite Hh. simpl in *. intuition. }
  destruct (exec_ticks_eval E (signal_handler sig ;; p) s11 l11) as (n & Hn).
  destruct (graceful_exit_eval (A := unit) E 1 s11) as (Hx & Hc & _).
  assert (Hrun : exec E (repeat Tick 11 ++ Signal sig :: repeat Tick n)
                      (start argv) =
                 mkConfig (Done (Exited 1))
                          (final (eval E (signal_handler sig) s11))
                          (rev (trace (eval E (signal_handler sig) s11)) ++ l11)).
  { rewrite exec_app, H11. cbn [exec]. unfold step. cbn [st ps log].
    rewrite Hin, Hn. rewrite eval_bind. unfold then_run, signal_handler.
    rewrite Hx. reflexivity. }
  exists n. cbv zeta. rewrite Hrun. unfold history. cbn [st log].
  split; [reflexivity|].
  rewrite rev_app_distr, rev_involutive, map_app, Hcalls.
  unfold signal_handler. rewrite Hc.
  unfold release_calls. rewrite Hl, Hf.
  apply Z.eqb_neq in Hfd. rewrite Hfd. reflexivity.
Qed.

Lemma X17_signal_in_child_witness :
  exists n,
    st (exec child_side (repeat Tick 11 ++ Signal SIGTERM :: repeat Tick n)
             (start ["solo"; "-l"; "/tmp/L"; "sleep"; "100"]%string))
    = Done (Exited 1).
Proof.
  destruct (X17_signal_in_child child_side "solo" "-l" "/tmp/L"
              ["sleep"; "100"]%string SIGTERM) as (n & H & _).
  - now left.
  - discriminate.
  - discriminate.
  - discriminate.
  - reflexivity.
  - simpl. auto.
  - exists n. exact H.
Defined.
